(** * Address hashing for memory partitions and cache banks

    A verification of [src/gpgpu-sim/hashing.cc]: the IPOLY hash
    [ipoly_hash_function], the plain XOR hash [bitwise_hash_function] and
    the page-address-entropy hash [PAE_hash_function].

    Integers of the C++ code are values of [Z] with their wrap-around
    written out; a [std::bitset<N>] is its size together with the value of
    its bits; a function that may hit a failing [assert] returns an
    [outcome]. *)

From Stdlib Require Import ZArith List Bool Lia Btauto FinFun.
Import ListNotations.

Local Open Scope Z_scope.

(** ** Machine integers *)

(** [unsigned] is 32 bits wide. *)
Definition unsigned_bits : Z := 32.

(** Modelled from the spec: [new_addr_type], declared in
    [abstract_hardware_model.h], is an unsigned integer of 64 bits
    ("an ordered sequence of 64 single bits, bit 0 = least significant"). *)
Definition new_addr_bits : Z := 64.

(** Conversion to [unsigned], as at the [return] of the three functions and
    in the arithmetic on [bank_set_num]. *)
Definition to_unsigned (v : Z) : Z := v mod 2 ^ unsigned_bits.

(** Conversion to [new_addr_type], the type at which [&] and [^] operate in
    [bitwise_hash_function] once an operand has that type. *)
Definition to_new_addr (v : Z) : Z := v mod 2 ^ new_addr_bits.

Definition is_unsigned (v : Z) : Prop := 0 <= v < 2 ^ unsigned_bits.
Definition is_new_addr (v : Z) : Prop := 0 <= v < 2 ^ new_addr_bits.

(** ** Outcome of a call

    [assert] is the macro of [<assert.h>]; the file does not define
    [NDEBUG], so an assertion whose condition is false aborts the program
    and the statements after it are not run. *)

Inductive outcome (A : Type) : Type :=
| Returned (v : A)
| AssertionFailed.

Arguments Returned {A} v.
Arguments AssertionFailed {A}.

Definition ret {A : Type} (v : A) : outcome A := Returned v.

Definition bind {A B : Type} (m : outcome A) (k : A -> outcome B)
  : outcome B :=
  match m with
  | Returned v => k v
  | AssertionFailed => AssertionFailed
  end.

Definition assert_ (cond : bool) : outcome unit :=
  if cond then Returned tt else AssertionFailed.

Notation "m ;; k" := (bind m (fun _ => k))
  (at level 61, right associativity).

(** ** [std::bitset<N>] *)

Module bitset.

Record t : Type := mk { size : Z; bits : Z }.

(** [bitset<N>(val)], the constructor from [unsigned long long]: the first
    [min N 64] bits are those of [val], the others are zero. *)
Definition of_ullong (N : Z) (val : Z) : t :=
  mk N (Z.land val (Z.ones (Z.min N 64))).

(** [s[pos]] read as a [bool]. *)
Definition get (s : t) (pos : Z) : bool := Z.testbit (bits s) pos.

(** [s[pos] = x]. *)
Definition set (s : t) (pos : Z) (x : bool) : t :=
  mk (size s) (if x then Z.setbit (bits s) pos else Z.clearbit (bits s) pos).

(** [s.to_ulong()]; the value always fits an [unsigned long] for the
    sizes used here (at most 8 bits). *)
Definition to_ulong (s : t) : Z := bits s.

(** Every bit of the value lies below the size. *)
Definition wf (s : t) : Prop := 0 <= bits s < 2 ^ size s.

End bitset.

Declare Scope bitset_scope.
Delimit Scope bitset_scope with bitset.
Notation "s .[ pos ]" := (bitset.get s pos)
  (at level 1, left associativity, format "s .[ pos ]") : bitset_scope.
Notation "s .[ pos <- x ]" := (bitset.set s pos x)
  (at level 1, left associativity, format "s .[ pos  <-  x ]") : bitset_scope.
(** [^] of C++ on two values that are 0 or 1. *)
Infix "^^" := xorb (at level 50, left associativity) : bitset_scope.

Local Open Scope bitset_scope.

(** ** The three hash functions *)

(** One branch per bank count; each output bit is assigned the XOR of
    bits of [higher_bits] and one bit of [index].  [a] and [b] are not
    assigned, so every right-hand side reads the bits of the arguments. *)
Definition ipoly_hash_function (higher_bits index bank_set_num : Z)
  : outcome Z :=
  if bank_set_num =? 8 then
    let a := bitset.of_ullong 64 higher_bits in
    let b := bitset.of_ullong 3 index in
    let new_index := bitset.of_ullong 3 index in
    let new_index := new_index.[0 <- a.[11] ^^ a.[10] ^^ a.[9] ^^ a.[7] ^^
        a.[4] ^^ a.[3] ^^ a.[2] ^^ a.[0] ^^ b.[0]] in
    let new_index := new_index.[1 <- a.[12] ^^ a.[9] ^^ a.[8] ^^ a.[7] ^^
        a.[5] ^^ a.[2] ^^ a.[1] ^^ a.[0] ^^ b.[1]] in
    let new_index := new_index.[2 <- a.[13] ^^ a.[10] ^^ a.[9] ^^ a.[8] ^^
        a.[6] ^^ a.[3] ^^ a.[2] ^^ a.[1] ^^ b.[2]] in
    ret (to_unsigned (bitset.to_ulong new_index))
  else if bank_set_num =? 16 then
    let a := bitset.of_ullong 64 higher_bits in
    let b := bitset.of_ullong 4 index in
    let new_index := bitset.of_ullong 4 index in
    let new_index := new_index.[0 <- a.[11] ^^ a.[10] ^^ a.[9] ^^ a.[8] ^^
        a.[6] ^^ a.[4] ^^ a.[3] ^^ a.[0] ^^ b.[0]] in
    let new_index := new_index.[1 <- a.[12] ^^ a.[8] ^^ a.[7] ^^ a.[6] ^^
        a.[5] ^^ a.[3] ^^ a.[1] ^^ a.[0] ^^ b.[1]] in
    let new_index := new_index.[2 <- a.[9] ^^ a.[8] ^^ a.[7] ^^ a.[6] ^^
        a.[4] ^^ a.[2] ^^ a.[1] ^^ b.[2]] in
    let new_index := new_index.[3 <- a.[10] ^^ a.[9] ^^ a.[8] ^^ a.[7] ^^
        a.[5] ^^ a.[3] ^^ a.[2] ^^ b.[3]] in
    ret (to_unsigned (bitset.to_ulong new_index))
  else if bank_set_num =? 32 then
    let a := bitset.of_ullong 64 higher_bits in
    let b := bitset.of_ullong 5 index in
    let new_index := bitset.of_ullong 5 index in
    let new_index := new_index.[0 <- a.[13] ^^ a.[12] ^^ a.[11] ^^ a.[10] ^^
        a.[9] ^^ a.[6] ^^ a.[5] ^^ a.[3] ^^ a.[0] ^^ b.[0]] in
    let new_index := new_index.[1 <- a.[14] ^^ a.[13] ^^ a.[12] ^^ a.[11] ^^
        a.[10] ^^ a.[7] ^^ a.[6] ^^ a.[4] ^^ a.[1] ^^ b.[1]] in
    let new_index := new_index.[2 <- a.[14] ^^ a.[10] ^^ a.[9] ^^ a.[8] ^^
        a.[7] ^^ a.[6] ^^ a.[3] ^^ a.[2] ^^ a.[0] ^^ b.[2]] in
    let new_index := new_index.[3 <- a.[11] ^^ a.[10] ^^ a.[9] ^^ a.[8] ^^
        a.[7] ^^ a.[4] ^^ a.[3] ^^ a.[1] ^^ b.[3]] in
    let new_index := new_index.[4 <- a.[12] ^^ a.[11] ^^ a.[10] ^^ a.[9] ^^
        a.[8] ^^ a.[5] ^^ a.[4] ^^ a.[2] ^^ b.[4]] in
    ret (to_unsigned (bitset.to_ulong new_index))
  else if bank_set_num =? 64 then
    let a := bitset.of_ullong 64 higher_bits in
    let b := bitset.of_ullong 6 index in
    let new_index := bitset.of_ullong 6 index in
    let new_index := new_index.[0 <- a.[18] ^^ a.[17] ^^ a.[16] ^^ a.[15] ^^
        a.[12] ^^ a.[10] ^^ a.[6] ^^ a.[5] ^^ a.[0] ^^ b.[0]] in
    let new_index := new_index.[1 <- a.[15] ^^ a.[13] ^^ a.[12] ^^ a.[11] ^^
        a.[10] ^^ a.[7] ^^ a.[5] ^^ a.[1] ^^ a.[0] ^^ b.[1]] in
    let new_index := new_index.[2 <- a.[16] ^^ a.[14] ^^ a.[13] ^^ a.[12] ^^
        a.[11] ^^ a.[8] ^^ a.[6] ^^ a.[2] ^^ a.[1] ^^ b.[2]] in
    let new_index := new_index.[3 <- a.[17] ^^ a.[15] ^^ a.[14] ^^ a.[13] ^^
        a.[12] ^^ a.[9] ^^ a.[7] ^^ a.[3] ^^ a.[2] ^^ b.[3]] in
    let new_index := new_index.[4 <- a.[18] ^^ a.[16] ^^ a.[15] ^^ a.[14] ^^
        a.[13] ^^ a.[10] ^^ a.[8] ^^ a.[4] ^^ a.[3] ^^ b.[4]] in
    let new_index := new_index.[5 <- a.[17] ^^ a.[16] ^^ a.[15] ^^ a.[14] ^^
        a.[11] ^^ a.[9] ^^ a.[5] ^^ a.[4] ^^ b.[5]] in
    ret (to_unsigned (bitset.to_ulong new_index))
  else if bank_set_num =? 128 then
    let a := bitset.of_ullong 64 higher_bits in
    let b := bitset.of_ullong 7 index in
    let new_index := bitset.of_ullong 7 index in
    let new_index := new_index.[0 <- a.[21] ^^ a.[20] ^^ a.[19] ^^ a.[18] ^^
        a.[14] ^^ a.[12] ^^ a.[7] ^^ a.[6] ^^ a.[0] ^^ b.[0]] in
    let new_index := new_index.[1 <- a.[22] ^^ a.[18] ^^ a.[15] ^^ a.[14] ^^
        a.[13] ^^ a.[12] ^^ a.[8] ^^ a.[6] ^^ a.[1] ^^ a.[0] ^^ b.[1]] in
    let new_index := new_index.[2 <- a.[19] ^^ a.[16] ^^ a.[15] ^^ a.[14] ^^
        a.[13] ^^ a.[9] ^^ a.[7] ^^ a.[2] ^^ a.[1] ^^ b.[2]] in
    let new_index := new_index.[3 <- a.[20] ^^ a.[17] ^^ a.[16] ^^ a.[15] ^^
        a.[14] ^^ a.[10] ^^ a.[8] ^^ a.[3] ^^ a.[2] ^^ b.[3]] in
    let new_index := new_index.[4 <- a.[21] ^^ a.[18] ^^ a.[17] ^^ a.[16] ^^
        a.[15] ^^ a.[11] ^^ a.[9] ^^ a.[4] ^^ a.[3] ^^ b.[4]] in
    let new_index := new_index.[5 <- a.[22] ^^ a.[19] ^^ a.[18] ^^ a.[17] ^^
        a.[16] ^^ a.[12] ^^ a.[10] ^^ a.[5] ^^ a.[4] ^^ b.[5]] in
    let new_index := new_index.[6 <- a.[20] ^^ a.[19] ^^ a.[18] ^^ a.[17] ^^
        a.[13] ^^ a.[11] ^^ a.[6] ^^ a.[5] ^^ b.[6]] in
    ret (to_unsigned (bitset.to_ulong new_index))
  else if bank_set_num =? 256 then
    let a := bitset.of_ullong 64 higher_bits in
    let b := bitset.of_ullong 8 index in
    let new_index := bitset.of_ullong 8 index in
    let new_index := new_index.[0 <- a.[21] ^^ a.[20] ^^ a.[19] ^^ a.[17] ^^
        a.[16] ^^ a.[13] ^^ a.[12] ^^ a.[10] ^^ a.[7] ^^ a.[5] ^^ a.[4] ^^
        a.[0] ^^ b.[0]] in
    let new_index := new_index.[1 <- a.[19] ^^ a.[18] ^^ a.[16] ^^ a.[14] ^^
        a.[12] ^^ a.[11] ^^ a.[10] ^^ a.[8] ^^ a.[7] ^^ a.[6] ^^ a.[4] ^^
        a.[1] ^^ a.[0] ^^ b.[1]] in
    let new_index := new_index.[2 <- a.[20] ^^ a.[19] ^^ a.[17] ^^ a.[15] ^^
        a.[13] ^^ a.[12] ^^ a.[11] ^^ a.[9] ^^ a.[8] ^^ a.[7] ^^ a.[5] ^^
        a.[2] ^^ a.[1] ^^ b.[2]] in
    let new_index := new_index.[3 <- a.[19] ^^ a.[18] ^^ a.[17] ^^ a.[14] ^^
        a.[9] ^^ a.[8] ^^ a.[7] ^^ a.[6] ^^ a.[5] ^^ a.[4] ^^ a.[3] ^^ a.[2]
        ^^ a.[0] ^^ b.[3]] in
    let new_index := new_index.[4 <- a.[21] ^^ a.[18] ^^ a.[17] ^^ a.[16] ^^
        a.[15] ^^ a.[13] ^^ a.[12] ^^ a.[9] ^^ a.[8] ^^ a.[6] ^^ a.[3] ^^
        a.[1] ^^ a.[0] ^^ b.[4]] in
    let new_index := new_index.[5 <- a.[19] ^^ a.[18] ^^ a.[17] ^^ a.[16] ^^
        a.[14] ^^ a.[13] ^^ a.[10] ^^ a.[9] ^^ a.[7] ^^ a.[4] ^^ a.[2] ^^
        a.[1] ^^ b.[5]] in
    let new_index := new_index.[6 <- a.[20] ^^ a.[19] ^^ a.[18] ^^ a.[17] ^^
        a.[15] ^^ a.[14] ^^ a.[11] ^^ a.[10] ^^ a.[8] ^^ a.[5] ^^ a.[3] ^^
        a.[2] ^^ b.[6]] in
    let new_index := new_index.[7 <- a.[21] ^^ a.[20] ^^ a.[19] ^^ a.[18] ^^
        a.[16] ^^ a.[15] ^^ a.[12] ^^ a.[11] ^^ a.[9] ^^ a.[6] ^^ a.[4] ^^
        a.[3] ^^ b.[7]] in
    ret (to_unsigned (bitset.to_ulong new_index))
  else
    (* the string literal is a non-null pointer, hence true *)
    assert_ (true && false) ;;
    ret 0.

(** [bank_set_num - 1] is computed on [unsigned]; [&] and [^] on
    [new_addr_type], to which the [unsigned] operands are converted; the
    result is converted to [unsigned] by [return]. *)
Definition bitwise_hash_function (higher_bits index bank_set_num : Z) : Z :=
  to_unsigned
    (Z.lxor (to_new_addr index)
       (Z.land higher_bits (to_new_addr (to_unsigned (bank_set_num - 1))))).

(** A single branch, for 32 banks.  The right-hand sides are kept as
    written, with [b[0]], [b[1]] and [b[3]] each occurring twice in the
    assignments to bits 0, 1 and 3. *)
Definition PAE_hash_function (higher_bits index bank_set_num : Z)
  : outcome Z :=
  if bank_set_num =? 32 then
    let a := bitset.of_ullong 64 higher_bits in
    let b := bitset.of_ullong 5 index in
    let new_index := bitset.of_ullong 5 index in
    let new_index := new_index.[0 <- a.[13] ^^ a.[10] ^^ a.[9] ^^ a.[5] ^^
        a.[0] ^^ b.[3] ^^ b.[0] ^^ b.[0]] in
    let new_index := new_index.[1 <- a.[12] ^^ a.[11] ^^ a.[6] ^^ a.[1] ^^
        b.[3] ^^ b.[2] ^^ b.[1] ^^ b.[1]] in
    let new_index := new_index.[2 <- a.[14] ^^ a.[9] ^^ a.[8] ^^ a.[7] ^^
        a.[2] ^^ b.[1] ^^ b.[2]] in
    let new_index := new_index.[3 <- a.[11] ^^ a.[10] ^^ a.[8] ^^ a.[3] ^^
        b.[2] ^^ b.[3] ^^ b.[3]] in
    let new_index := new_index.[4 <- a.[12] ^^ a.[9] ^^ a.[8] ^^ a.[5] ^^
        a.[4] ^^ b.[1] ^^ b.[0] ^^ b.[4]] in
    ret (to_unsigned (bitset.to_ulong new_index))
  else
    assert_ false ;;
    ret 0.

(** ** Vocabulary of the properties *)

(** The bank counts with a branch in [ipoly_hash_function], as its
    assertion message lists them. *)
Definition ipoly_bank_set_nums : list Z := [8; 16; 32; 64; 128; 256].

(** The bank counts for which the IPOLY hash adds only raw-index bit [k]
    to output bit [k], as the "identity at zero entropy" property names
    them. *)
Definition identity_bank_set_nums : list Z := [8; 16; 64; 128].

(** The value a call returns; [0] stands for a call that does not return
    (used only where the call is known to return). *)
Definition returned_value (o : outcome Z) : Z :=
  match o with
  | Returned v => v
  | AssertionFailed => 0
  end.

(** The hashed index of raw index 0. *)
Definition ipoly_mask (higher_bits bank_set_num : Z) : Z :=
  returned_value (ipoly_hash_function higher_bits 0 bank_set_num).

(** [f] is a linear map over GF(2) in its pair of arguments. *)
Definition linear_GF2 (f : Z -> Z -> outcome Z) : Prop :=
  (forall a a' b b',
      exists v v',
        f a b = Returned v /\ f a' b' = Returned v' /\
        f (Z.lxor a a') (Z.lxor b b') = Returned (Z.lxor v v'))
  /\ f 0 0 = Returned 0.

(** [f] returns on every index of [[0, n)], with a value of [[0, n)], and
    is one-to-one and onto there. *)
Definition bijection_on (n : Z) (f : Z -> outcome Z) : Prop :=
  (forall i, 0 <= i < n -> exists v, f i = Returned v /\ 0 <= v < n) /\
  (forall i j, 0 <= i < n -> 0 <= j < n -> f i = f j -> i = j) /\
  (forall v, 0 <= v < n -> exists i, 0 <= i < n /\ f i = Returned v).

(** ** Vocabulary of further properties *)

(** The number of index bits of a bank count, the [N] of its
    [bitset<N>]. *)
Definition index_bits (bank_set_num : Z) : Z := Z.log2 bank_set_num.

(** One more than the highest position of [a] that the branch of a bank
    count reads: [a[13]] for 8 banks, [a[12]] for 16, [a[14]] for 32,
    [a[18]] for 64, [a[22]] for 128 and [a[21]] for 256. *)
Definition ipoly_high_bits_used (bank_set_num : Z) : Z :=
  if bank_set_num =? 8 then 14
  else if bank_set_num =? 16 then 13
  else if bank_set_num =? 32 then 15
  else if bank_set_num =? 64 then 19
  else if bank_set_num =? 128 then 23
  else if bank_set_num =? 256 then 22
  else 0.

(** The same for the PAE hash, whose highest position is [a[14]]. *)
Definition PAE_high_bits_used : Z := 15.

(** The polynomial the comment of [ipoly_hash_function] names for a bank
    count, IPOLY(19) to IPOLY(283), its bits being the coefficients; for
    8 banks, which the comment leaves out, the polynomial of degree 3
    that the equations follow, [x^3 + x + 1]. *)
Definition ipoly_polynomial (bank_set_num : Z) : Z :=
  if bank_set_num =? 8 then 11
  else if bank_set_num =? 16 then 19
  else if bank_set_num =? 32 then 37
  else if bank_set_num =? 64 then 67
  else if bank_set_num =? 128 then 131
  else if bank_set_num =? 256 then 283
  else 0.

(** Reference arithmetic of the comment ("modular arithmetic in GF(2)"):
    polynomials over GF(2) are integers, bit [j] being the coefficient of
    [x^j]. *)

(** The multiples of the polynomial [P]: the XORs of shifts of [P]. *)
Inductive gf2_multiple (P : Z) : Z -> Prop :=
| gf2_multiple_0 : gf2_multiple P 0
| gf2_multiple_shift (m k : Z) :
    gf2_multiple P m -> 0 <= k ->
    gf2_multiple P (Z.lxor m (Z.shiftl P k)).

(** [k] steps of the long division by [P], from the coefficient of
    [x^(deg P + k - 1)] down to that of [x^(deg P)]: the remainder of a
    polynomial of degree below [deg P + k]. *)
Fixpoint gf2_rem (k : nat) (x P : Z) : Z :=
  match k with
  | O => x
  | S k' =>
    let x' :=
      if Z.testbit x (Z.log2 P + Z.of_nat k')
      then Z.lxor x (Z.shiftl P (Z.of_nat k'))
      else x in
    gf2_rem k' x' P
  end.

(** The hash of an address whose low [index_bits] bits are the index and
    whose other bits are the higher bits. *)
Definition ipoly_hash_of_address (bank_set_num address : Z) : outcome Z :=
  ipoly_hash_function
    (Z.shiftr address (index_bits bank_set_num))
    (address mod 2 ^ index_bits bank_set_num)
    bank_set_num.

(** The indices below [n], in order. *)
Definition indices_below (n : Z) : list Z :=
  map Z.of_nat (seq 0 (Z.to_nat n)).

(** The same for the PAE hash, with its five index bits. *)
Definition PAE_hash_of_address (address : Z) : outcome Z :=
  PAE_hash_function (Z.shiftr address 5) (address mod 2 ^ 5) 32.

(** The starts [s] of five consecutive address bits whose settings the PAE
    hash keeps apart. *)
Definition PAE_good_strides : list Z := [1; 4; 5; 6; 7; 8; 9; 14; 15].

(** Whether some setting but 0 of the five bits from [s] on is hashed
    to 0. *)
Definition PAE_window_collides (s : Z) : bool :=
  existsb
    (fun w =>
       negb (w =? 0)
       && (returned_value (PAE_hash_of_address (Z.shiftl w s)) =? 0))
    (indices_below 32).

(** * Verification *)

(** ** The functions on concrete arguments *)

(** High bit 0 enters output bits 0 and 1 of the 8-bank IPOLY hash. *)
Example ipoly_8_high_bit_0 : ipoly_hash_function 1 5 8 = Returned 6.
Proof. reflexivity. Qed.

Example ipoly_32_sample : ipoly_hash_function 12345 5 32 = Returned 22.
Proof. reflexivity. Qed.

(** Raw index bit 0 reaches output bit 4 of the PAE hash and no other. *)
Example PAE_index_1 : PAE_hash_function 0 1 32 = Returned 16.
Proof. reflexivity. Qed.

Example ipoly_7_banks : ipoly_hash_function 0 5 7 = AssertionFailed.
Proof. reflexivity. Qed.

(** [bank_set_num - 1] wraps to [2^32 - 1] at 0. *)
Example bitwise_0_banks : bitwise_hash_function (2 ^ 40 + 3) 5 0 = 6.
Proof. reflexivity. Qed.

(** ** Bits of bounded integers *)

Lemma pow2_pos (N : Z) : 0 <= N -> 0 < 2 ^ N.
Proof. intros HN. apply Z.pow_pos_nonneg; lia. Qed.

(** A value lies in [[0, 2^N)] exactly when it has no bit at or above [N]. *)
Lemma below_pow2_bits (N z : Z) :
  0 <= N ->
  (0 <= z < 2 ^ N <-> forall j, N <= j -> Z.testbit z j = false).
Proof.
  intros HN. split.
  - intros Hz j Hj.
    rewrite <- (Z.mod_small z (2 ^ N)) by exact Hz.
    apply Z.mod_pow2_bits_high. lia.
  - intros Hhigh.
    assert (Hmod : z = z mod 2 ^ N).
    { apply Z.bits_inj'. intros j Hj.
      rewrite Z.testbit_mod_pow2 by exact HN.
      destruct (Z.ltb_spec j N) as [Hlt | Hge]; [reflexivity |].
      now rewrite Hhigh. }
    rewrite Hmod. apply Z.mod_pos_bound, pow2_pos, HN.
Qed.

(** Two values below [2^N] that agree on their [N] low bits are equal. *)
Lemma eq_low_bits (N x y : Z) :
  0 <= N -> 0 <= x < 2 ^ N -> 0 <= y < 2 ^ N ->
  (forall j, 0 <= j < N -> Z.testbit x j = Z.testbit y j) ->
  x = y.
Proof.
  intros HN Hx Hy Hlow.
  apply Z.bits_inj'. intros j Hj.
  destruct (Z.lt_ge_cases j N) as [Hlt | Hge].
  - apply Hlow. lia.
  - rewrite (proj1 (below_pow2_bits N x HN) Hx j Hge).
    now rewrite (proj1 (below_pow2_bits N y HN) Hy j Hge).
Qed.

Lemma lxor_below_pow2 (N x y : Z) :
  0 <= N -> 0 <= x < 2 ^ N -> 0 <= y < 2 ^ N -> 0 <= Z.lxor x y < 2 ^ N.
Proof.
  intros HN Hx Hy. apply (below_pow2_bits N _ HN). intros j Hj.
  rewrite Z.lxor_spec.
  rewrite (proj1 (below_pow2_bits N x HN) Hx j Hj).
  now rewrite (proj1 (below_pow2_bits N y HN) Hy j Hj).
Qed.

Lemma land_below_pow2 (N x y : Z) :
  0 <= N -> 0 <= y < 2 ^ N -> 0 <= Z.land x y < 2 ^ N.
Proof.
  intros HN Hy. apply (below_pow2_bits N _ HN). intros j Hj.
  rewrite Z.land_spec.
  rewrite (proj1 (below_pow2_bits N y HN) Hy j Hj).
  apply andb_false_r.
Qed.

Lemma lxor_cancel_r (x y m : Z) : Z.lxor x m = Z.lxor y m -> x = y.
Proof.
  intros H.
  rewrite <- (Z.lxor_0_r x), <- (Z.lxor_0_r y), <- (Z.lxor_nilpotent m).
  rewrite <- !Z.lxor_assoc. now rewrite H.
Qed.

Lemma to_unsigned_small (v : Z) : is_unsigned v -> to_unsigned v = v.
Proof. intros Hv. apply Z.mod_small, Hv. Qed.

Lemma below_pow2_mono (N M z : Z) :
  0 <= N <= M -> 0 <= z < 2 ^ N -> 0 <= z < 2 ^ M.
Proof.
  intros HNM Hz. split; [lia |].
  apply Z.lt_le_trans with (2 ^ N); [lia |].
  apply Z.pow_le_mono_r; lia.
Qed.

(** ** Facts on [std::bitset<N>] *)

Module bitset_facts.
Import bitset.

Lemma wf_of_ullong (N val : Z) : 0 <= N -> wf (of_ullong N val).
Proof.
  intros HN. unfold wf, of_ullong. cbn [bits size].
  rewrite Z.land_ones by lia.
  apply below_pow2_mono with (Z.min N 64); [lia |].
  apply Z.mod_pos_bound, pow2_pos. lia.
Qed.

Lemma testbit_set (s : t) (pos : Z) (x : bool) (j : Z) :
  0 <= pos ->
  Z.testbit (bits (set s pos x)) j
  = if j =? pos then x else Z.testbit (bits s) j.
Proof.
  intros Hpos. unfold set. cbn [bits].
  destruct x.
  - rewrite Z.setbit_eqb by exact Hpos. rewrite (Z.eqb_sym pos j).
    now destruct (j =? pos).
  - rewrite Z.clearbit_eqb. rewrite (Z.eqb_sym pos j).
    destruct (j =? pos); [apply andb_false_r | apply andb_true_r].
Qed.

Lemma testbit_set_eq (s : t) (pos : Z) (x : bool) :
  0 <= pos -> Z.testbit (bits (set s pos x)) pos = x.
Proof. intros Hpos. rewrite testbit_set by exact Hpos. now rewrite Z.eqb_refl. Qed.

Lemma testbit_set_neq (s : t) (pos : Z) (x : bool) (j : Z) :
  0 <= pos -> j <> pos ->
  Z.testbit (bits (set s pos x)) j = Z.testbit (bits s) j.
Proof.
  intros Hpos Hne. rewrite testbit_set by exact Hpos.
  now rewrite (proj2 (Z.eqb_neq j pos) Hne).
Qed.

(** Assigning a bit below the size keeps the value below [2^size]. *)
Lemma wf_set (s : t) (pos : Z) (x : bool) :
  wf s -> 0 <= pos < size s -> wf (set s pos x).
Proof.
  unfold wf. intros Hs Hpos.
  assert (HN : 0 <= size s) by lia.
  change (size (set s pos x)) with (size s).
  apply (below_pow2_bits _ _ HN). intros j Hj.
  rewrite testbit_set_neq by lia.
  now apply (proj1 (below_pow2_bits _ _ HN) Hs).
Qed.

Lemma get_of_ullong (N val pos : Z) :
  0 <= pos < Z.min N 64 -> get (of_ullong N val) pos = Z.testbit val pos.
Proof.
  intros Hpos. unfold get, of_ullong. cbn [bits].
  rewrite Z.land_spec, Z.testbit_ones_nonneg by lia.
  rewrite (proj2 (Z.ltb_lt pos _)) by lia. apply andb_true_r.
Qed.

Lemma to_ulong_bound (s : t) : wf s -> 0 <= to_ulong s < 2 ^ size s.
Proof. intros Hs. exact Hs. Qed.

End bitset_facts.

(** ** Tactics for a block of bit assignments *)

Import bitset_facts.

Lemma to_unsigned_to_ulong (s : bitset.t) :
  bitset.wf s -> 0 <= bitset.size s <= 32 ->
  to_unsigned (bitset.to_ulong s) = bitset.bits s.
Proof.
  intros Hs Hsize. apply to_unsigned_small.
  apply below_pow2_mono with (bitset.size s); [exact Hsize | exact Hs].
Qed.

Lemma testbit_mod_bank (N i j : Z) :
  0 <= j < N -> Z.testbit (i mod 2 ^ N) j = Z.testbit i j.
Proof. intros Hj. apply Z.mod_pow2_bits_low. lia. Qed.

(** The size of a bitset built by [of_ullong] and a run of assignments. *)
Ltac bitset_size := cbn [bitset.size bitset.set bitset.of_ullong].

(** [wf] of such a bitset: every assignment is below the size. *)
Ltac wf_chain :=
  repeat (apply wf_set; [ | bitset_size; lia ]);
  apply wf_of_ullong; lia.

Ltac bits_bound :=
  lazymatch goal with
  | |- 0 <= bitset.bits ?s < 2 ^ _ => change (bitset.wf s); wf_chain
  | |- 0 <= _ mod 2 ^ _ < 2 ^ _ => apply Z.mod_pos_bound, pow2_pos; lia
  end.

(** The conversion to [unsigned] at [return] changes nothing. *)
Ltac drop_to_unsigned :=
  rewrite !to_unsigned_to_ulong by first [ wf_chain | bitset_size; lia ].

(** Case analysis on a position [j] known to lie below a literal bound. *)
Ltac enum_pos j k :=
  first
    [ exfalso; lia
    | destruct (Z.eq_dec j k) as [-> | ?];
      [ | let k' := eval cbv in (k + 1) in enum_pos j k' ] ].

(** Reads one bit of a run of assignments: the result is a [xorb] of bits
    of the arguments. *)
Ltac read_bits :=
  repeat first
    [ rewrite Z.lxor_spec
    | rewrite testbit_set_eq by lia
    | rewrite testbit_set_neq by lia
    | rewrite get_of_ullong by lia
    | rewrite testbit_mod_bank by lia
    | rewrite Z.bits_0 ].

(** Selects the branch of the [if] chain for a literal [bank_set_num]. *)
Ltac enter_branch :=
  cbv beta delta [ipoly_hash_function PAE_hash_function];
  cbn [Z.eqb Pos.eqb]; cbv zeta; unfold ret.

(** Two returned values are equal when their [N] low bits are: both sides
    are runs of assignments on a [bitset<N>], or the XOR of two. *)
Ltac same_low_bits N :=
  f_equal; drop_to_unsigned;
  apply (eq_low_bits N);
  [ lia
  | bits_bound
  | apply lxor_below_pow2; [ lia | bits_bound | bits_bound ]
  | let j := fresh "j" in
    let Hj := fresh "Hj" in
    intros j Hj; enum_pos j 0; read_bits; btauto ].

(** ** The hashed index is below the bank count *)

Ltac in_banks H :=
  unfold ipoly_bank_set_nums in H; cbn [In] in H;
  repeat (destruct H as [H | H]; [ subst | ]); [ .. | contradiction ].

Ltac returned_below :=
  enter_branch; eexists; split; [ reflexivity | ];
  drop_to_unsigned; bits_bound.

Lemma ipoly_in_range (n higher_bits index : Z) :
  In n ipoly_bank_set_nums ->
  exists v, ipoly_hash_function higher_bits index n = Returned v /\ 0 <= v < n.
Proof.
  intros Hn. in_banks Hn.
  - change 8 with (2 ^ 3) at 2. returned_below.
  - change 16 with (2 ^ 4) at 2. returned_below.
  - change 32 with (2 ^ 5) at 2. returned_below.
  - change 64 with (2 ^ 6) at 2. returned_below.
  - change 128 with (2 ^ 7) at 2. returned_below.
  - change 256 with (2 ^ 8) at 2. returned_below.
Qed.

Lemma PAE_in_range (higher_bits index : Z) :
  exists v, PAE_hash_function higher_bits index 32 = Returned v /\ 0 <= v < 32.
Proof. change 32 with (2 ^ 5) at 2. returned_below. Qed.

(** ** IPOLY: the index is XORed with a mask that depends on the high bits *)

Ltac xor_mask N :=
  unfold ipoly_mask; enter_branch; cbn [returned_value]; same_low_bits N.

Lemma ipoly_xor_mask (n higher_bits index : Z) :
  In n ipoly_bank_set_nums ->
  ipoly_hash_function higher_bits index n
  = Returned (Z.lxor (index mod n) (ipoly_mask higher_bits n)).
Proof.
  intros Hn. in_banks Hn.
  - change (index mod 8) with (index mod 2 ^ 3). xor_mask 3.
  - change (index mod 16) with (index mod 2 ^ 4). xor_mask 4.
  - change (index mod 32) with (index mod 2 ^ 5). xor_mask 5.
  - change (index mod 64) with (index mod 2 ^ 6). xor_mask 6.
  - change (index mod 128) with (index mod 2 ^ 7). xor_mask 7.
  - change (index mod 256) with (index mod 2 ^ 8). xor_mask 8.
Qed.

Lemma ipoly_mask_range (n higher_bits : Z) :
  In n ipoly_bank_set_nums -> 0 <= ipoly_mask higher_bits n < n.
Proof.
  intros Hn. unfold ipoly_mask.
  destruct (ipoly_in_range n higher_bits 0 Hn) as (v & Hv & Hrange).
  rewrite Hv. exact Hrange.
Qed.

Lemma ipoly_mask_0 (n : Z) :
  In n ipoly_bank_set_nums -> ipoly_mask 0 n = 0.
Proof. intros Hn. in_banks Hn; reflexivity. Qed.

Lemma bank_is_pow2 (n : Z) :
  In n ipoly_bank_set_nums -> exists N, 0 <= N /\ n = 2 ^ N.
Proof.
  intros Hn. in_banks Hn;
    [ exists 3 | exists 4 | exists 5 | exists 6 | exists 7 | exists 8 ];
    split; (lia || reflexivity).
Qed.

(** ** Both matrix hashes are additive for XOR *)

Ltac additive N :=
  enter_branch; do 2 eexists;
  split; [ reflexivity | split; [ reflexivity | ] ];
  same_low_bits N.

Lemma ipoly_linear (n : Z) :
  In n ipoly_bank_set_nums ->
  linear_GF2 (fun a b => ipoly_hash_function a b n).
Proof.
  intros Hn. split; [ | in_banks Hn; reflexivity ].
  intros a a' b b'. in_banks Hn.
  - additive 3.
  - additive 4.
  - additive 5.
  - additive 6.
  - additive 7.
  - additive 8.
Qed.

Lemma PAE_linear : linear_GF2 (fun a b => PAE_hash_function a b 32).
Proof.
  split; [ | reflexivity ].
  intros a a' b b'. additive 5.
Qed.

(** ** The bitwise hash without its conversions *)

Lemma is_unsigned_is_new_addr (v : Z) : is_unsigned v -> is_new_addr v.
Proof.
  unfold is_unsigned, is_new_addr, unsigned_bits, new_addr_bits.
  intros Hv. apply below_pow2_mono with 32; [lia | exact Hv].
Qed.

Lemma to_new_addr_small (v : Z) : is_new_addr v -> to_new_addr v = v.
Proof. intros Hv. apply Z.mod_small, Hv. Qed.

Lemma to_unsigned_range (v : Z) : is_unsigned (to_unsigned v).
Proof. apply Z.mod_pos_bound, pow2_pos. unfold unsigned_bits. lia. Qed.

(** On arguments of their C++ types no conversion loses a bit; only the
    subtraction [bank_set_num - 1] wraps, at [bank_set_num = 0]. *)
Lemma bitwise_hash_unfold (higher_bits index bank_set_num : Z) :
  is_unsigned index ->
  bitwise_hash_function higher_bits index bank_set_num
  = Z.lxor index (Z.land higher_bits (to_unsigned (bank_set_num - 1))).
Proof.
  intros Hi. unfold bitwise_hash_function.
  pose proof (to_unsigned_range (bank_set_num - 1)) as Hmask.
  rewrite (to_new_addr_small index) by now apply is_unsigned_is_new_addr.
  rewrite (to_new_addr_small (to_unsigned _))
    by now apply is_unsigned_is_new_addr.
  apply to_unsigned_small.
  apply lxor_below_pow2; [unfold unsigned_bits; lia | exact Hi |].
  apply land_below_pow2; [unfold unsigned_bits; lia | exact Hmask].
Qed.

Lemma testbit_true_ge_pow2 (z k : Z) :
  0 <= k -> 0 <= z -> Z.testbit z k = true -> 2 ^ k <= z.
Proof.
  intros Hk Hz Hbit.
  destruct (Z.le_gt_cases (2 ^ k) z) as [Hle | Hlt]; [exact Hle |].
  assert (Hfalse : Z.testbit z k = false).
  { apply (proj1 (below_pow2_bits k z Hk)); lia. }
  congruence.
Qed.

Lemma pow2_bit (k j : Z) : 0 <= k -> Z.testbit (2 ^ k) j = (j =? k).
Proof.
  intros Hk. destruct (Z.eqb_spec j k) as [-> | Hne].
  - apply Z.pow2_bits_true, Hk.
  - apply Z.pow2_bits_false. congruence.
Qed.

(** * The properties of the specification *)

(** ** IPOLY is a bijection on the index domain *)

(** C1. For every bank count of 8, 16, 32, 64, 128 and 256 and every fixed
    value of the high bits, the IPOLY hash restricted to the indices of
    [[0, bank_set_num)] returns a value of that range, maps distinct
    indices to distinct hashed indices and reaches every value of the
    range. *)
Theorem ipoly_bijection (n higher_bits : Z) :
  In n ipoly_bank_set_nums ->
  bijection_on n (fun index => ipoly_hash_function higher_bits index n).
Proof.
  intros Hn.
  pose proof (ipoly_mask_range n higher_bits Hn) as Hmask.
  destruct (bank_is_pow2 n Hn) as (N & HN & Hpow).
  split; [ | split ].
  - intros i _. apply ipoly_in_range, Hn.
  - intros i j Hi Hj Heq.
    rewrite !ipoly_xor_mask in Heq by exact Hn.
    injection Heq as Heq. apply lxor_cancel_r in Heq.
    now rewrite !Z.mod_small in Heq by assumption.
  - intros v Hv.
    exists (Z.lxor v (ipoly_mask higher_bits n)).
    assert (Hi : 0 <= Z.lxor v (ipoly_mask higher_bits n) < n).
    { rewrite Hpow in *. now apply lxor_below_pow2. }
    split; [exact Hi |].
    rewrite ipoly_xor_mask by exact Hn.
    rewrite Z.mod_small by exact Hi.
    now rewrite Z.lxor_assoc, Z.lxor_nilpotent, Z.lxor_0_r.
Qed.

Lemma ipoly_bijection_witness :
  In 8 ipoly_bank_set_nums /\
  bijection_on 8 (fun index => ipoly_hash_function 5 index 8).
Proof.
  assert (H8 : In 8 ipoly_bank_set_nums) by (simpl; tauto).
  split; [exact H8 | exact (ipoly_bijection 8 5 H8)].
Defined.

(** ** PAE folds the index domain in two *)

Lemma PAE_at_0_17 : PAE_hash_function 0 17 32 = Returned 0.
Proof. reflexivity. Qed.

(** Raw index bits 0 and 4 enter output bit 4 only: bit 0 is cancelled in
    output bit 0 by [b[0] ^ b[0]].  Flipping both leaves the hashed index
    unchanged. *)
Lemma PAE_flip_0_and_4 (higher_bits index : Z) :
  PAE_hash_function higher_bits (Z.lxor index 17) 32
  = PAE_hash_function higher_bits index 32.
Proof.
  destruct PAE_linear as [Hadd _].
  destruct (Hadd higher_bits 0 index 17) as (v & v' & Hv & Hv' & Hsum).
  cbv beta in Hv, Hv', Hsum.
  rewrite PAE_at_0_17 in Hv'. injection Hv' as <-.
  rewrite Z.lxor_0_r in Hsum. rewrite Z.lxor_0_r in Hsum.
  now rewrite Hsum, Hv.
Qed.

Lemma lxor_17_neq (index : Z) : Z.lxor index 17 <> index.
Proof.
  intros Heq.
  assert (Hbit : Z.testbit (Z.lxor index 17) 0 = Z.testbit index 0)
    by now rewrite Heq.
  rewrite Z.lxor_spec in Hbit. change (Z.testbit 17 0) with true in Hbit.
  now destruct (Z.testbit index 0).
Qed.

(** C2. The PAE hash for 32 banks is not one-to-one on [[0, 32)]: for
    every value of the high bits, every index collides with the index
    that differs from it in bits 0 and 4, which is another index of
    [[0, 32)]. *)
Theorem PAE_index_collision (higher_bits index : Z) :
  0 <= index < 32 ->
  0 <= Z.lxor index 17 < 32 /\
  Z.lxor index 17 <> index /\
  PAE_hash_function higher_bits (Z.lxor index 17) 32
  = PAE_hash_function higher_bits index 32.
Proof.
  intros Hi. split; [ | split ].
  - change 32 with (2 ^ 5) in *. apply lxor_below_pow2; lia.
  - apply lxor_17_neq.
  - apply PAE_flip_0_and_4.
Qed.

Lemma PAE_index_collision_witness :
  0 <= 0 < 32 /\
  0 <= Z.lxor 0 17 < 32 /\
  Z.lxor 0 17 <> 0 /\
  PAE_hash_function 0 (Z.lxor 0 17) 32 = PAE_hash_function 0 0 32.
Proof.
  assert (H0 : 0 <= 0 < 32) by lia.
  split; [exact H0 | exact (PAE_index_collision 0 0 H0)].
Defined.

(** For no value of the high bits is the PAE hash a bijection on
    [[0, 32)]. *)
Lemma PAE_not_bijection (higher_bits : Z) :
  ~ bijection_on 32 (fun index => PAE_hash_function higher_bits index 32).
Proof.
  intros (_ & Hinj & _).
  specialize (Hinj 17 0). cbv beta in Hinj.
  rewrite <- (PAE_flip_0_and_4 higher_bits 0) in Hinj.
  change (Z.lxor 0 17) with 17 in Hinj.
  specialize (Hinj ltac:(lia) ltac:(lia) eq_refl). discriminate Hinj.
Qed.

(** ** Range *)

(** C3. For every supported bank count and all values of the high bits and
    of the index, the IPOLY hash (bank counts 8 to 256) and the PAE hash
    (bank count 32) return a value of [[0, bank_set_num)]. *)
Theorem hashed_index_in_range :
  (forall n higher_bits index,
      In n ipoly_bank_set_nums ->
      exists v,
        ipoly_hash_function higher_bits index n = Returned v /\ 0 <= v < n)
  /\
  (forall higher_bits index,
      exists v,
        PAE_hash_function higher_bits index 32 = Returned v /\ 0 <= v < 32).
Proof.
  split.
  - intros n higher_bits index Hn. now apply ipoly_in_range.
  - apply PAE_in_range.
Qed.

Lemma hashed_index_in_range_witness :
  In 256 ipoly_bank_set_nums /\
  exists v, ipoly_hash_function 12345 678 256 = Returned v /\ 0 <= v < 256.
Proof.
  assert (H256 : In 256 ipoly_bank_set_nums) by (simpl; tauto).
  split; [exact H256 |].
  exact (proj1 hashed_index_in_range 256 12345 678 H256).
Defined.

(** ** Identity at zero high bits *)

Lemma identity_banks_supported (n : Z) :
  In n identity_bank_set_nums -> In n ipoly_bank_set_nums.
Proof. unfold identity_bank_set_nums, ipoly_bank_set_nums. simpl. tauto. Qed.

Lemma ipoly_zero_high_bits (n index : Z) :
  In n ipoly_bank_set_nums -> 0 <= index < n ->
  ipoly_hash_function 0 index n = Returned index.
Proof.
  intros Hn Hi.
  rewrite ipoly_xor_mask by exact Hn.
  rewrite ipoly_mask_0 by exact Hn.
  now rewrite Z.lxor_0_r, Z.mod_small.
Qed.

(** C4. With high bits 0, for the bank counts 8, 16, 64 and 128 and every
    index of [[0, bank_set_num)], the IPOLY hash returns the index; in
    particular it returns 5 for index 5 and 8 banks. *)
Theorem ipoly_identity_at_zero :
  (forall n index,
      In n identity_bank_set_nums -> 0 <= index < n ->
      ipoly_hash_function 0 index n = Returned index)
  /\ ipoly_hash_function 0 5 8 = Returned 5.
Proof.
  split; [ | reflexivity ].
  intros n index Hn Hi.
  apply ipoly_zero_high_bits; [ | exact Hi ].
  now apply identity_banks_supported.
Qed.

Lemma ipoly_identity_at_zero_witness :
  In 64 identity_bank_set_nums /\ 0 <= 37 < 64 /\
  ipoly_hash_function 0 37 64 = Returned 37.
Proof.
  assert (H64 : In 64 identity_bank_set_nums) by (simpl; tauto).
  assert (H37 : 0 <= 37 < 64) by lia.
  split; [exact H64 | split; [exact H37 |]].
  exact (proj1 ipoly_identity_at_zero 64 37 H64 H37).
Defined.

(** ** IPOLY for 32 banks has no cross-terms *)

(** The statement that IPOLY for 32 banks moves some index when the high
    bits are 0 fails: no index of [[0, 32)] is moved. *)
Lemma ipoly_32_moves_no_index :
  ~ (exists index,
        0 <= index < 32 /\ ipoly_hash_function 0 index 32 <> Returned index).
Proof.
  intros (index & Hi & Hmoved). apply Hmoved.
  apply ipoly_zero_high_bits; [ simpl; tauto | exact Hi ].
Qed.

(** C5, amended. For 32 banks, output bit [k] of the IPOLY hash is the
    XOR of a fixed subset of the bits of the high bits and of raw-index
    bit [k] only, as for the other bank counts: the five equations are
    those of the branch, with no other raw-index bit.  Hence two indices
    that agree on bit [k] give hashed indices that agree on bit [k],
    whatever their other bits; and with high bits 0 every index of
    [[0, 32)] is returned unchanged. *)
Theorem ipoly_32_no_cross_terms :
  (forall higher_bits index index' k,
      0 <= k < 5 ->
      Z.testbit index k = Z.testbit index' k ->
      exists v v',
        ipoly_hash_function higher_bits index 32 = Returned v /\
        ipoly_hash_function higher_bits index' 32 = Returned v' /\
        Z.testbit v k = Z.testbit v' k)
  /\
  (forall index,
      0 <= index < 32 -> ipoly_hash_function 0 index 32 = Returned index)
  /\
  (forall higher_bits index,
      exists v,
        ipoly_hash_function higher_bits index 32 = Returned v /\
        0 <= v < 32 /\
        Z.testbit v 0
        = Z.testbit higher_bits 13 ^^ Z.testbit higher_bits 12
          ^^ Z.testbit higher_bits 11 ^^ Z.testbit higher_bits 10
          ^^ Z.testbit higher_bits 9 ^^ Z.testbit higher_bits 6
          ^^ Z.testbit higher_bits 5 ^^ Z.testbit higher_bits 3
          ^^ Z.testbit higher_bits 0 ^^ Z.testbit index 0 /\
        Z.testbit v 1
        = Z.testbit higher_bits 14 ^^ Z.testbit higher_bits 13
          ^^ Z.testbit higher_bits 12 ^^ Z.testbit higher_bits 11
          ^^ Z.testbit higher_bits 10 ^^ Z.testbit higher_bits 7
          ^^ Z.testbit higher_bits 6 ^^ Z.testbit higher_bits 4
          ^^ Z.testbit higher_bits 1 ^^ Z.testbit index 1 /\
        Z.testbit v 2
        = Z.testbit higher_bits 14 ^^ Z.testbit higher_bits 10
          ^^ Z.testbit higher_bits 9 ^^ Z.testbit higher_bits 8
          ^^ Z.testbit higher_bits 7 ^^ Z.testbit higher_bits 6
          ^^ Z.testbit higher_bits 3 ^^ Z.testbit higher_bits 2
          ^^ Z.testbit higher_bits 0 ^^ Z.testbit index 2 /\
        Z.testbit v 3
        = Z.testbit higher_bits 11 ^^ Z.testbit higher_bits 10
          ^^ Z.testbit higher_bits 9 ^^ Z.testbit higher_bits 8
          ^^ Z.testbit higher_bits 7 ^^ Z.testbit higher_bits 4
          ^^ Z.testbit higher_bits 3 ^^ Z.testbit higher_bits 1
          ^^ Z.testbit index 3 /\
        Z.testbit v 4
        = Z.testbit higher_bits 12 ^^ Z.testbit higher_bits 11
          ^^ Z.testbit higher_bits 10 ^^ Z.testbit higher_bits 9
          ^^ Z.testbit higher_bits 8 ^^ Z.testbit higher_bits 5
          ^^ Z.testbit higher_bits 4 ^^ Z.testbit higher_bits 2
          ^^ Z.testbit index 4).
Proof.
  assert (H32 : In 32 ipoly_bank_set_nums) by (simpl; tauto).
  split; [ | split ]; cycle 2.
  - intros higher_bits index. enter_branch.
    eexists. split; [reflexivity |].
    split; [change 32 with (2 ^ 5); drop_to_unsigned; bits_bound |].
    drop_to_unsigned. read_bits. repeat split.
  - intros higher_bits index index' k Hk Hbit.
    do 2 eexists.
    split; [ apply ipoly_xor_mask, H32 | ].
    split; [ apply ipoly_xor_mask, H32 | ].
    change 32 with (2 ^ 5) at 1 3.
    rewrite !Z.lxor_spec, !testbit_mod_bank by exact Hk.
    now rewrite Hbit.
  - intros index Hi. now apply ipoly_zero_high_bits.
Qed.

Lemma ipoly_32_no_cross_terms_witness :
  (0 <= 2 < 5 /\ Z.testbit 4 2 = Z.testbit 31 2 /\
   exists v v',
     ipoly_hash_function 1000 4 32 = Returned v /\
     ipoly_hash_function 1000 31 32 = Returned v' /\
     Z.testbit v 2 = Z.testbit v' 2)
  /\ (0 <= 21 < 32 /\ ipoly_hash_function 0 21 32 = Returned 21).
Proof.
  assert (Hk : 0 <= 2 < 5) by lia.
  assert (Hbit : Z.testbit 4 2 = Z.testbit 31 2) by reflexivity.
  assert (Hi : 0 <= 21 < 32) by lia.
  split.
  - split; [exact Hk | split; [exact Hbit |]].
    exact (proj1 ipoly_32_no_cross_terms 1000 4 31 2 Hk Hbit).
  - split; [exact Hi |].
    exact (proj1 (proj2 ipoly_32_no_cross_terms) 21 Hi).
Defined.

(** ** The bitwise hash *)

(** C6. On arguments of their C++ types the bitwise hash is the index XOR
    the high bits masked by [bank_set_num - 1], the subtraction being that
    of [unsigned]; it is a total function with no assertion, whatever the
    bank count.  For 32 banks the mask is 31. *)
Theorem bitwise_hash_masking (higher_bits index bank_set_num : Z) :
  is_unsigned index ->
  is_unsigned bank_set_num ->
  bitwise_hash_function higher_bits index bank_set_num
  = Z.lxor index (Z.land higher_bits (to_unsigned (bank_set_num - 1)))
  /\ (bank_set_num <> 0 ->
      bitwise_hash_function higher_bits index bank_set_num
      = Z.lxor index (Z.land higher_bits (bank_set_num - 1)))
  /\ bitwise_hash_function higher_bits index 32
     = Z.lxor index (Z.land higher_bits 31).
Proof.
  intros Hi Hn. split; [ | split ].
  - now apply bitwise_hash_unfold.
  - intros Hn0. rewrite bitwise_hash_unfold by exact Hi.
    rewrite to_unsigned_small; [reflexivity |].
    unfold is_unsigned in *. lia.
  - now rewrite bitwise_hash_unfold by exact Hi.
Qed.

Lemma bitwise_hash_masking_witness :
  is_unsigned 77 /\ is_unsigned 24 /\
  bitwise_hash_function 1000 77 24
  = Z.lxor 77 (Z.land 1000 (to_unsigned (24 - 1)))
  /\ (24 <> 0 ->
      bitwise_hash_function 1000 77 24 = Z.lxor 77 (Z.land 1000 (24 - 1)))
  /\ bitwise_hash_function 1000 77 32 = Z.lxor 77 (Z.land 1000 31).
Proof.
  assert (H77 : is_unsigned 77) by (unfold is_unsigned, unsigned_bits; lia).
  assert (H24 : is_unsigned 24) by (unfold is_unsigned, unsigned_bits; lia).
  split; [exact H77 | split; [exact H24 |]].
  exact (bitwise_hash_masking 1000 77 24 H77 H24).
Defined.

(** The second worked example of the specification fails: the result is
    not 0. *)
Lemma bitwise_example_21_5_not_0 : bitwise_hash_function 21 5 32 <> 0.
Proof. discriminate. Qed.

(** C7, amended. [bitwise_hash(0b100000, 0b00101, 32) = 0b00101] and
    [bitwise_hash(0b10101, 0b00101, 32) = 0b10000]: bit 4 of the high bits
    is set and bit 4 of the index is not. *)
Theorem bitwise_hash_examples :
  bitwise_hash_function 32 5 32 = 5 /\ bitwise_hash_function 21 5 32 = 16.
Proof. split; reflexivity. Qed.

(** ** Unsupported bank counts *)

Lemma ipoly_unsupported (higher_bits index n : Z) :
  ~ In n ipoly_bank_set_nums ->
  ipoly_hash_function higher_bits index n = AssertionFailed.
Proof.
  unfold ipoly_bank_set_nums. cbn [In]. intros Hn.
  unfold ipoly_hash_function.
  repeat
    match goal with
    | |- context [n =? ?c] =>
      replace (n =? c) with false
        by (symmetry; apply Z.eqb_neq; intros ->; tauto)
    end.
  reflexivity.
Qed.

Lemma PAE_unsupported (higher_bits index n : Z) :
  n <> 32 -> PAE_hash_function higher_bits index n = AssertionFailed.
Proof.
  intros Hn. unfold PAE_hash_function.
  rewrite (proj2 (Z.eqb_neq n 32) Hn). reflexivity.
Qed.

(** C8. The IPOLY hash called with a bank count other than 8, 16, 32, 64,
    128 and 256, and the PAE hash called with a bank count other than 32,
    fail their assertion and return no hashed index; with a supported bank
    count neither reaches its assertion. *)
Theorem unsupported_bank_count_aborts :
  (forall higher_bits index n,
      ~ In n ipoly_bank_set_nums ->
      ipoly_hash_function higher_bits index n = AssertionFailed)
  /\
  (forall higher_bits index n,
      n <> 32 -> PAE_hash_function higher_bits index n = AssertionFailed)
  /\
  (forall higher_bits index n,
      In n ipoly_bank_set_nums ->
      ipoly_hash_function higher_bits index n <> AssertionFailed)
  /\
  (forall higher_bits index,
      PAE_hash_function higher_bits index 32 <> AssertionFailed).
Proof.
  split; [ | split; [ | split ] ].
  - intros higher_bits index n. apply ipoly_unsupported.
  - intros higher_bits index n. apply PAE_unsupported.
  - intros higher_bits index n Hn.
    destruct (ipoly_in_range n higher_bits index Hn) as (v & Hv & _).
    rewrite Hv. discriminate.
  - intros higher_bits index.
    destruct (PAE_in_range higher_bits index) as (v & Hv & _).
    rewrite Hv. discriminate.
Qed.

Lemma unsupported_bank_count_aborts_witness :
  (~ In 7 ipoly_bank_set_nums /\
   ipoly_hash_function 9 3 7 = AssertionFailed)
  /\ (64 <> 32 /\ PAE_hash_function 9 3 64 = AssertionFailed)
  /\ (In 16 ipoly_bank_set_nums /\
      ipoly_hash_function 9 3 16 <> AssertionFailed).
Proof.
  assert (H7 : ~ In 7 ipoly_bank_set_nums).
  { simpl. intros H. repeat (destruct H as [H | H]; [discriminate H |]).
    exact H. }
  assert (H64 : 64 <> 32) by discriminate.
  assert (H16 : In 16 ipoly_bank_set_nums) by (simpl; tauto).
  destruct unsupported_bank_count_aborts as (Hipoly & Hpae & Hok & _).
  split; [ | split ].
  - split; [exact H7 | exact (Hipoly 9 3 7 H7)].
  - split; [exact H64 | exact (Hpae 9 3 64 H64)].
  - split; [exact H16 | exact (Hok 9 3 16 H16)].
Defined.

(** ** Linearity over GF(2) *)

(** C9. For every supported bank count the IPOLY hash, and for 32 banks
    the PAE hash, is linear over GF(2) in the pair of the high bits and the
    index: the hash of the XOR of two pairs is the XOR of their hashes, and
    the pair (0, 0) is hashed to 0. *)
Theorem hash_linear_over_GF2 :
  (forall n,
      In n ipoly_bank_set_nums ->
      linear_GF2 (fun a b => ipoly_hash_function a b n))
  /\ linear_GF2 (fun a b => PAE_hash_function a b 32).
Proof.
  split.
  - apply ipoly_linear.
  - apply PAE_linear.
Qed.

Lemma hash_linear_over_GF2_witness :
  In 128 ipoly_bank_set_nums /\
  linear_GF2 (fun a b => ipoly_hash_function a b 128).
Proof.
  assert (H128 : In 128 ipoly_bank_set_nums) by (simpl; tauto).
  split; [exact H128 | exact (proj1 hash_linear_over_GF2 128 H128)].
Defined.

(** ** The bitwise hash does not reduce the index *)

Lemma pow2_is_unsigned (k : Z) : 0 <= k < 32 -> is_unsigned (2 ^ k).
Proof.
  intros Hk. unfold is_unsigned, unsigned_bits. split.
  - apply Z.lt_le_incl, pow2_pos. lia.
  - apply Z.pow_lt_mono_r; lia.
Qed.

Lemma bitwise_hash_pow2 (k higher_bits index : Z) :
  0 <= k < 32 ->
  is_unsigned index ->
  bitwise_hash_function higher_bits index (2 ^ k)
  = Z.lxor index (higher_bits mod 2 ^ k).
Proof.
  intros Hk Hi.
  pose proof (pow2_is_unsigned k Hk) as Hn.
  rewrite bitwise_hash_unfold by exact Hi.
  rewrite to_unsigned_small by (unfold is_unsigned in *; lia).
  replace (2 ^ k - 1) with (Z.ones k) by (rewrite Z.ones_equiv; lia).
  now rewrite Z.land_ones by lia.
Qed.

(** C10. The bitwise hash does not reduce its index.  For a bank count
    [2^k] that fits [unsigned] and any high bits, an index below the bank
    count is hashed below the bank count; the index equal to the bank count
    is hashed to a value that is at least the bank count, the bank count
    itself when the high bits are 0. *)
Theorem bitwise_hash_no_range_reduction (k higher_bits : Z) :
  0 <= k < 32 ->
  (forall index,
      0 <= index < 2 ^ k ->
      0 <= bitwise_hash_function higher_bits index (2 ^ k) < 2 ^ k)
  /\ 2 ^ k <= bitwise_hash_function higher_bits (2 ^ k) (2 ^ k)
  /\ bitwise_hash_function 0 (2 ^ k) (2 ^ k) = 2 ^ k.
Proof.
  intros Hk.
  pose proof (pow2_is_unsigned k Hk) as Hn.
  assert (Hmod : 0 <= higher_bits mod 2 ^ k < 2 ^ k)
    by (apply Z.mod_pos_bound, pow2_pos; lia).
  split; [ | split ].
  - intros index Hi.
    rewrite bitwise_hash_pow2;
      [ | exact Hk | unfold is_unsigned in *; lia ].
    apply lxor_below_pow2; [lia | exact Hi | exact Hmod].
  - rewrite bitwise_hash_pow2 by assumption.
    apply testbit_true_ge_pow2; [lia | |].
    + apply Z.lxor_nonneg. unfold is_unsigned in Hn. lia.
    + rewrite Z.lxor_spec, pow2_bit, Z.eqb_refl by lia.
      rewrite Z.mod_pow2_bits_high by lia. reflexivity.
  - rewrite bitwise_hash_pow2 by assumption.
    rewrite Z.mod_0_l by (pose proof (pow2_pos k); lia).
    apply Z.lxor_0_r.
Qed.

Lemma bitwise_hash_no_range_reduction_witness :
  0 <= 5 < 32 /\
  (forall index,
      0 <= index < 2 ^ 5 ->
      0 <= bitwise_hash_function 1000 index (2 ^ 5) < 2 ^ 5)
  /\ 2 ^ 5 <= bitwise_hash_function 1000 (2 ^ 5) (2 ^ 5)
  /\ bitwise_hash_function 0 (2 ^ 5) (2 ^ 5) = 2 ^ 5.
Proof.
  assert (H5 : 0 <= 5 < 32) by lia.
  split; [exact H5 | exact (bitwise_hash_no_range_reduction 5 1000 H5)].
Defined.

(** * Further properties of the code *)

(** ** IPOLY: structure in the index *)

(** X1. For each of the six bank counts and any higher bits, the IPOLY hash
    is the XOR of the low bits of the index with a mask below the bank
    count that depends on the higher bits only; index bits at or above
    the bank count are dropped. *)
Theorem ipoly_translates_index (n higher_bits : Z) :
  In n ipoly_bank_set_nums ->
  exists mask,
    0 <= mask < n /\
    forall index,
      ipoly_hash_function higher_bits index n
      = Returned (Z.lxor (index mod n) mask).
Proof.
  intros Hn. exists (ipoly_mask higher_bits n). split.
  - now apply ipoly_mask_range.
  - intros index. now apply ipoly_xor_mask.
Qed.

Lemma ipoly_translates_index_witness :
  In 256 ipoly_bank_set_nums /\
  exists mask,
    0 <= mask < 256 /\
    forall index,
      ipoly_hash_function 99999 index 256
      = Returned (Z.lxor (index mod 256) mask).
Proof.
  assert (H256 : In 256 ipoly_bank_set_nums) by (simpl; tauto).
  split; [exact H256 | exact (ipoly_translates_index 256 99999 H256)].
Defined.

Lemma ipoly_mask_lxor (n a a' : Z) :
  In n ipoly_bank_set_nums ->
  ipoly_mask (Z.lxor a a') n = Z.lxor (ipoly_mask a n) (ipoly_mask a' n).
Proof.
  intros Hn. unfold ipoly_mask.
  destruct (ipoly_linear n Hn) as [Hadd _].
  destruct (Hadd a a' 0 0) as (v & v' & Hv & Hv' & Hsum).
  cbv beta in Hv, Hv', Hsum. change (Z.lxor 0 0) with 0 in Hsum.
  now rewrite Hv, Hv', Hsum.
Qed.

(** X2. Hashing a hashed index again composes the higher bits by XOR:
    the hash under [h1] of the hash of [index] under [h2] is the hash of
    [index] under [h1 XOR h2].  With the same higher bits twice the index
    (reduced below the bank count) comes back. *)
Theorem ipoly_hash_twice (n h1 h2 index : Z) :
  In n ipoly_bank_set_nums ->
  exists v,
    ipoly_hash_function h2 index n = Returned v /\
    ipoly_hash_function h1 v n
    = ipoly_hash_function (Z.lxor h1 h2) index n /\
    (h1 = h2 -> ipoly_hash_function h1 v n = Returned (index mod n)).
Proof.
  intros Hn.
  destruct (bank_is_pow2 n Hn) as (N & HN & Hpow).
  pose proof (ipoly_mask_range n h1 Hn) as Hm1.
  pose proof (ipoly_mask_range n h2 Hn) as Hm2.
  assert (Hi : 0 <= index mod n < n).
  { apply Z.mod_pos_bound. rewrite Hpow. now apply pow2_pos. }
  assert (Hv : 0 <= Z.lxor (index mod n) (ipoly_mask h2 n) < n).
  { rewrite Hpow in *. now apply lxor_below_pow2. }
  exists (Z.lxor (index mod n) (ipoly_mask h2 n)).
  split; [now apply ipoly_xor_mask |].
  assert (Htwice :
            ipoly_hash_function h1 (Z.lxor (index mod n) (ipoly_mask h2 n)) n
            = ipoly_hash_function (Z.lxor h1 h2) index n).
  { rewrite !ipoly_xor_mask by exact Hn.
    rewrite (Z.mod_small _ n Hv).
    rewrite ipoly_mask_lxor by exact Hn.
    now rewrite Z.lxor_assoc, (Z.lxor_comm (ipoly_mask h1 n)). }
  split; [exact Htwice |].
  intros ->. rewrite Htwice, Z.lxor_nilpotent.
  rewrite ipoly_xor_mask, ipoly_mask_0 by exact Hn.
  now rewrite Z.lxor_0_r.
Qed.

Lemma ipoly_hash_twice_witness :
  In 64 ipoly_bank_set_nums /\
  exists v,
    ipoly_hash_function 777 100 64 = Returned v /\
    ipoly_hash_function 777 v 64
    = ipoly_hash_function (Z.lxor 777 777) 100 64 /\
    (777 = 777 -> ipoly_hash_function 777 v 64 = Returned (100 mod 64)).
Proof.
  assert (H64 : In 64 ipoly_bank_set_nums) by (simpl; tauto).
  split; [exact H64 | exact (ipoly_hash_twice 64 777 777 100 H64)].
Defined.

(** ** Which higher bits the IPOLY hash reads *)

Lemma in_indices_below (n j : Z) : In j (indices_below n) <-> 0 <= j < n.
Proof.
  unfold indices_below. rewrite in_map_iff. split.
  - intros (k & <- & Hk). apply in_seq in Hk. lia.
  - intros Hj. exists (Z.to_nat j). split; [lia |].
    apply in_seq. lia.
Qed.

Lemma forallb_indices_below (p : Z -> bool) (n : Z) :
  forallb p (indices_below n) = true ->
  forall j, 0 <= j < n -> p j = true.
Proof.
  intros Hall j Hj. rewrite forallb_forall in Hall.
  apply Hall, in_indices_below, Hj.
Qed.

(** As [same_low_bits], for two runs of assignments. *)
Ltac same_chain N :=
  drop_to_unsigned;
  apply (eq_low_bits N);
  [ lia
  | bits_bound
  | bits_bound
  | let j := fresh "j" in
    let Hj := fresh "Hj" in
    intros j Hj; enum_pos j 0; read_bits; btauto ].

Ltac mask_mod N :=
  unfold ipoly_mask; enter_branch; cbn [returned_value]; same_chain N.

Lemma ipoly_mask_mod (n higher_bits : Z) :
  In n ipoly_bank_set_nums ->
  ipoly_mask (higher_bits mod 2 ^ ipoly_high_bits_used n) n
  = ipoly_mask higher_bits n.
Proof.
  intros Hn. in_banks Hn.
  - change (ipoly_high_bits_used 8) with 14. mask_mod 3.
  - change (ipoly_high_bits_used 16) with 13. mask_mod 4.
  - change (ipoly_high_bits_used 32) with 15. mask_mod 5.
  - change (ipoly_high_bits_used 64) with 19. mask_mod 6.
  - change (ipoly_high_bits_used 128) with 23. mask_mod 7.
  - change (ipoly_high_bits_used 256) with 22. mask_mod 8.
Qed.

Lemma ipoly_high_bits_used_nonneg (n : Z) : 0 <= ipoly_high_bits_used n.
Proof.
  unfold ipoly_high_bits_used.
  repeat match goal with |- context [if ?c then _ else _] => destruct c end;
    lia.
Qed.

Lemma pow2_mod_pow2 (j K : Z) : 0 <= K <= j -> 2 ^ j mod 2 ^ K = 0.
Proof.
  intros HK. replace j with ((j - K) + K) by lia.
  rewrite Z.pow_add_r by lia. apply Z.mod_mul.
  pose proof (pow2_pos K). lia.
Qed.

(** Every position of [a] below [ipoly_high_bits_used] is read by some
    assignment: the hash of that bit alone is not 0. *)
Lemma ipoly_used_bits_matter (n j : Z) :
  In n ipoly_bank_set_nums ->
  0 <= j < ipoly_high_bits_used n ->
  ipoly_mask (2 ^ j) n <> 0.
Proof.
  intros Hn Hj.
  assert (Hall :
            forallb (fun j => negb (ipoly_mask (2 ^ j) n =? 0))
                    (indices_below (ipoly_high_bits_used n)) = true)
    by (in_banks Hn; vm_compute; reflexivity).
  apply (forallb_indices_below _ _ Hall) in Hj.
  apply negb_true_iff, Z.eqb_neq in Hj. exact Hj.
Qed.

(** X3. Flipping bit [j] of the higher bits changes the IPOLY hash exactly
    when [j] is below [ipoly_high_bits_used]: 14 for 8 banks, 13 for 16,
    15 for 32, 19 for 64, 23 for 128 and 22 for 256.  Two addresses that
    differ only above these bits always share their bank. *)
Theorem ipoly_high_bit_sensitivity (n higher_bits index j : Z) :
  In n ipoly_bank_set_nums ->
  0 <= j ->
  ipoly_hash_function (Z.lxor higher_bits (2 ^ j)) index n
  = ipoly_hash_function higher_bits index n
  <-> ipoly_high_bits_used n <= j.
Proof.
  intros Hn Hj.
  rewrite !ipoly_xor_mask, ipoly_mask_lxor by exact Hn.
  pose proof (ipoly_high_bits_used_nonneg n) as HK.
  split.
  - intros Heq. injection Heq as Heq.
    rewrite (Z.lxor_comm (ipoly_mask higher_bits n)) in Heq.
    rewrite <- Z.lxor_assoc in Heq.
    rewrite <- (Z.lxor_0_l (ipoly_mask higher_bits n)) in Heq at 2.
    rewrite <- (Z.lxor_assoc (index mod n) 0) in Heq.
    apply lxor_cancel_r in Heq.
    rewrite Z.lxor_0_r in Heq.
    assert (Hzero : ipoly_mask (2 ^ j) n = 0).
    { apply (lxor_cancel_r _ _ (index mod n)).
      now rewrite Z.lxor_0_l, Z.lxor_comm. }
    destruct (Z.le_gt_cases (ipoly_high_bits_used n) j) as [Hle | Hlt];
      [exact Hle |].
    exfalso. apply (ipoly_used_bits_matter n j Hn); [lia | exact Hzero].
  - intros Hle.
    rewrite <- (ipoly_mask_mod n (2 ^ j)) by exact Hn.
    rewrite pow2_mod_pow2 by lia.
    now rewrite ipoly_mask_0, Z.lxor_0_r by exact Hn.
Qed.

Lemma ipoly_high_bit_sensitivity_witness :
  In 16 ipoly_bank_set_nums /\ 0 <= 13 /\
  (ipoly_hash_function (Z.lxor 4660 (2 ^ 13)) 9 16
   = ipoly_hash_function 4660 9 16
   <-> ipoly_high_bits_used 16 <= 13).
Proof.
  assert (H16 : In 16 ipoly_bank_set_nums) by (simpl; tauto).
  assert (H13 : 0 <= 13) by lia.
  split; [exact H16 | split; [exact H13 |]].
  exact (ipoly_high_bit_sensitivity 16 4660 9 13 H16 H13).
Defined.

(** ** The IPOLY equations are polynomial remainders *)

(** *** The reference remainder *)

Lemma gf2_rem_lxor (k : nat) (x y P : Z) :
  gf2_rem k (Z.lxor x y) P = Z.lxor (gf2_rem k x P) (gf2_rem k y P).
Proof.
  revert x y. induction k as [| k IH]; intros x y; [reflexivity |].
  cbn [gf2_rem]. rewrite <- IH. f_equal.
  rewrite Z.lxor_spec.
  set (D := Z.shiftl P (Z.of_nat k)).
  destruct (Z.testbit x _), (Z.testbit y _); cbn [xorb].
  - rewrite Z.lxor_assoc, (Z.lxor_comm D), Z.lxor_assoc.
    now rewrite Z.lxor_nilpotent, Z.lxor_0_r.
  - now rewrite !Z.lxor_assoc, (Z.lxor_comm D).
  - now rewrite Z.lxor_assoc.
  - reflexivity.
Qed.

(** What is subtracted from [x] is a multiple of [P]. *)
Lemma gf2_rem_multiple (k : nat) (x P : Z) :
  gf2_multiple P (Z.lxor x (gf2_rem k x P)).
Proof.
  revert x. induction k as [| k IH]; intros x.
  - cbn [gf2_rem]. rewrite Z.lxor_nilpotent. constructor.
  - cbn [gf2_rem].
    destruct (Z.testbit x _); [ | apply IH ].
    set (D := Z.shiftl P (Z.of_nat k)).
    replace (Z.lxor x (gf2_rem k (Z.lxor x D) P))
      with (Z.lxor (Z.lxor (Z.lxor x D) (gf2_rem k (Z.lxor x D) P)) D).
    + constructor; [apply IH | lia].
    + rewrite (Z.lxor_assoc x D), (Z.lxor_comm D), <- (Z.lxor_assoc x).
      rewrite (Z.lxor_assoc _ D D).
      now rewrite Z.lxor_nilpotent, Z.lxor_0_r.
Qed.

(** The remainder has a degree below that of [P]. *)
Lemma gf2_rem_degree (k : nat) (x P : Z) :
  0 < P ->
  0 <= x < 2 ^ (Z.log2 P + Z.of_nat k) ->
  0 <= gf2_rem k x P < 2 ^ Z.log2 P.
Proof.
  intros HP. pose proof (Z.log2_nonneg P) as Hd.
  revert x. induction k as [| k IH]; intros x Hx.
  - cbn [gf2_rem]. now rewrite Z.add_0_r in Hx.
  - cbn [gf2_rem]. apply IH.
    assert (Hd' : 0 <= Z.log2 P + Z.of_nat k) by lia.
    apply (below_pow2_bits _ _ Hd'). intros j Hj.
    assert (Hhigh : forall i, Z.log2 P + Z.of_nat (S k) <= i ->
                              Z.testbit x i = false).
    { apply below_pow2_bits; [lia | exact Hx]. }
    destruct (Z.eq_dec j (Z.log2 P + Z.of_nat k)) as [-> | Hne].
    + destruct (Z.testbit x _) eqn:Hbit; [ | exact Hbit ].
      rewrite Z.lxor_spec, Hbit, Z.shiftl_spec by lia.
      replace (Z.log2 P + Z.of_nat k - Z.of_nat k) with (Z.log2 P) by lia.
      now rewrite Z.bit_log2.
    + assert (Hxj : Z.testbit x j = false) by (apply Hhigh; lia).
      destruct (Z.testbit x (Z.log2 P + Z.of_nat k)); [ | exact Hxj ].
      rewrite Z.lxor_spec, Hxj, Z.shiftl_spec by lia.
      apply Z.bits_above_log2; lia.
Qed.

(** *** Two XOR-additive maps that agree on the powers of two *)

Lemma split_top_bit (M x : Z) :
  0 <= M -> 0 <= x < 2 ^ (M + 1) ->
  x = Z.lxor (x mod 2 ^ M) (if Z.testbit x M then 2 ^ M else 0).
Proof.
  intros HM Hx. apply Z.bits_inj'. intros j Hj.
  rewrite Z.lxor_spec, Z.testbit_mod_pow2 by exact HM.
  assert (Hhigh : forall i, M + 1 <= i -> Z.testbit x i = false)
    by (apply below_pow2_bits; [lia | exact Hx]).
  destruct (Z.ltb_spec j M) as [Hlt | Hge]; cbn [andb].
  - destruct (Z.testbit x M).
    + rewrite Z.pow2_bits_false by lia. now rewrite xorb_false_r.
    + now rewrite Z.bits_0, xorb_false_r.
  - destruct (Z.eq_dec j M) as [-> | Hne].
    + destruct (Z.testbit x M).
      * now rewrite Z.pow2_bits_true by lia.
      * now rewrite Z.bits_0.
    + rewrite Hhigh by lia.
      destruct (Z.testbit x M).
      * now rewrite Z.pow2_bits_false by lia.
      * now rewrite Z.bits_0.
Qed.

Section additive_maps.

Variables F G : Z -> Z.
Hypothesis F_lxor : forall x y, F (Z.lxor x y) = Z.lxor (F x) (F y).
Hypothesis G_lxor : forall x y, G (Z.lxor x y) = Z.lxor (G x) (G y).

Lemma additive_0 : F 0 = 0.
Proof.
  apply (lxor_cancel_r _ _ (F 0)).
  now rewrite <- F_lxor, Z.lxor_0_l.
Qed.

Lemma additive_agree (M : nat) :
  (forall j, 0 <= j < Z.of_nat M -> F (2 ^ j) = G (2 ^ j)) ->
  forall x, 0 <= x < 2 ^ Z.of_nat M -> F x = G x.
Proof.
  assert (F0 : F 0 = 0) by exact additive_0.
  assert (G0 : G 0 = 0).
  { apply (lxor_cancel_r _ _ (G 0)). now rewrite <- G_lxor, Z.lxor_0_l. }
  induction M as [| M IH]; intros Hbasis x Hx.
  - change (2 ^ Z.of_nat 0) with 1 in Hx.
    replace x with 0 by lia. congruence.
  - rewrite Nat2Z.inj_succ, <- Z.add_1_r in Hx.
    rewrite (split_top_bit (Z.of_nat M) x) by (lia || exact Hx).
    rewrite F_lxor, G_lxor. f_equal.
    + apply IH.
      * intros j Hj. apply Hbasis. lia.
      * apply Z.mod_pos_bound, pow2_pos. lia.
    + destruct (Z.testbit x (Z.of_nat M)); [ | congruence ].
      apply Hbasis. lia.
Qed.

End additive_maps.

(** *** The hash of an address *)

Lemma mod_pow2_lxor (N x y : Z) :
  0 <= N ->
  Z.lxor x y mod 2 ^ N = Z.lxor (x mod 2 ^ N) (y mod 2 ^ N).
Proof.
  intros HN. apply Z.bits_inj'. intros j Hj.
  rewrite Z.lxor_spec, !Z.testbit_mod_pow2, Z.lxor_spec by exact HN.
  destruct (j <? N); [reflexivity |]. reflexivity.
Qed.

Lemma index_bits_pow2 (n : Z) :
  In n ipoly_bank_set_nums -> 0 <= index_bits n /\ n = 2 ^ index_bits n.
Proof. intros Hn. in_banks Hn; split; (discriminate || reflexivity). Qed.

Lemma ipoly_of_address_value (n address : Z) :
  In n ipoly_bank_set_nums ->
  ipoly_hash_of_address n address
  = Returned (returned_value (ipoly_hash_of_address n address)).
Proof.
  intros Hn. unfold ipoly_hash_of_address.
  now rewrite ipoly_xor_mask by exact Hn.
Qed.

Lemma ipoly_of_address_lxor (n x y : Z) :
  In n ipoly_bank_set_nums ->
  returned_value (ipoly_hash_of_address n (Z.lxor x y))
  = Z.lxor (returned_value (ipoly_hash_of_address n x))
           (returned_value (ipoly_hash_of_address n y)).
Proof.
  intros Hn. unfold ipoly_hash_of_address.
  destruct (index_bits_pow2 n Hn) as [HN _].
  rewrite Z.shiftr_lxor, mod_pow2_lxor by exact HN.
  destruct (ipoly_linear n Hn) as [Hadd _].
  destruct (Hadd (Z.shiftr x (index_bits n)) (Z.shiftr y (index_bits n))
                 (x mod 2 ^ index_bits n) (y mod 2 ^ index_bits n))
    as (v & v' & Hv & Hv' & Hsum).
  cbv beta in Hv, Hv', Hsum.
  now rewrite Hv, Hv', Hsum.
Qed.

(** The address made of the higher bits that are read and of the index
    bits. *)
Lemma ipoly_of_joined_address (n higher_bits index : Z) :
  In n ipoly_bank_set_nums ->
  ipoly_hash_of_address n
    ((higher_bits mod 2 ^ ipoly_high_bits_used n) * n + index mod n)
  = ipoly_hash_function higher_bits index n.
Proof.
  intros Hn. unfold ipoly_hash_of_address.
  destruct (index_bits_pow2 n Hn) as [HN Hpow].
  assert (Hi : 0 <= index mod n < n).
  { apply Z.mod_pos_bound. rewrite Hpow. now apply pow2_pos. }
  rewrite Z.shiftr_div_pow2 by exact HN. rewrite <- Hpow.
  rewrite Z.div_add_l, Z.div_small, Z.add_0_r by lia.
  rewrite Z.add_comm, Z.mod_add, Z.mod_mod by lia.
  rewrite !ipoly_xor_mask by exact Hn.
  now rewrite Z.mod_mod, ipoly_mask_mod by (exact Hn || lia).
Qed.

Lemma ipoly_polynomial_degree (n : Z) :
  In n ipoly_bank_set_nums ->
  0 < ipoly_polynomial n /\ Z.log2 (ipoly_polynomial n) = index_bits n.
Proof. intros Hn. in_banks Hn; split; reflexivity. Qed.

(** On each power of two the equations give the remainder. *)
Lemma ipoly_remainder_basis (n j : Z) :
  In n ipoly_bank_set_nums ->
  0 <= j < index_bits n + ipoly_high_bits_used n ->
  returned_value (ipoly_hash_of_address n (2 ^ j))
  = gf2_rem (Z.to_nat (ipoly_high_bits_used n)) (2 ^ j) (ipoly_polynomial n).
Proof.
  intros Hn Hj.
  assert (Hall :
            forallb
              (fun j =>
                 returned_value (ipoly_hash_of_address n (2 ^ j))
                 =? gf2_rem (Z.to_nat (ipoly_high_bits_used n)) (2 ^ j)
                            (ipoly_polynomial n))
              (indices_below (index_bits n + ipoly_high_bits_used n))
            = true)
    by (in_banks Hn; vm_compute; reflexivity).
  apply (forallb_indices_below _ _ Hall) in Hj.
  now apply Z.eqb_eq in Hj.
Qed.

(** X4. The equations of each bank count are those of the polynomial
    named in the comment of the function: the hash is the remainder,
    modulo that polynomial over GF(2), of the polynomial whose
    coefficients are the index bits followed by the higher bits that are
    read.  The remainder is below the bank count and differs from the
    address by a multiple of the polynomial. *)
Theorem ipoly_is_polynomial_remainder (n higher_bits index : Z) :
  In n ipoly_bank_set_nums ->
  let address :=
    (higher_bits mod 2 ^ ipoly_high_bits_used n) * n + index mod n in
  let r :=
    gf2_rem (Z.to_nat (ipoly_high_bits_used n)) address (ipoly_polynomial n)
  in
  ipoly_hash_function higher_bits index n = Returned r /\
  0 <= r < n /\
  gf2_multiple (ipoly_polynomial n) (Z.lxor address r).
Proof.
  intros Hn address r.
  destruct (index_bits_pow2 n Hn) as [HN Hpow].
  destruct (ipoly_polynomial_degree n Hn) as [HP Hdeg].
  pose proof (ipoly_high_bits_used_nonneg n) as HK.
  assert (Hh : 0 <= higher_bits mod 2 ^ ipoly_high_bits_used n
               < 2 ^ ipoly_high_bits_used n)
    by (apply Z.mod_pos_bound, pow2_pos, HK).
  assert (Hi : 0 <= index mod n < n).
  { apply Z.mod_pos_bound. rewrite Hpow. now apply pow2_pos. }
  assert (Haddr : 0 <= address
                  < 2 ^ (index_bits n + ipoly_high_bits_used n)).
  { unfold address. rewrite Z.pow_add_r, <- Hpow by assumption. nia. }
  split; [ | split ].
  - rewrite <- ipoly_of_joined_address by exact Hn. fold address.
    rewrite ipoly_of_address_value by exact Hn. f_equal. unfold r.
    apply (additive_agree
             (fun x => returned_value (ipoly_hash_of_address n x))
             (fun x => gf2_rem (Z.to_nat (ipoly_high_bits_used n)) x
                               (ipoly_polynomial n))
             (fun x y => ipoly_of_address_lxor n x y Hn)
             (fun x y => gf2_rem_lxor _ x y _)
             (Z.to_nat (index_bits n + ipoly_high_bits_used n))).
    + intros j Hj. apply ipoly_remainder_basis; [exact Hn | lia].
    + rewrite Z2Nat.id by lia. exact Haddr.
  - assert (Hr : 0 <= r < 2 ^ Z.log2 (ipoly_polynomial n)).
    { apply gf2_rem_degree; [exact HP |].
      rewrite Hdeg, Z2Nat.id by lia. exact Haddr. }
    rewrite Hdeg, <- Hpow in Hr. exact Hr.
  - apply gf2_rem_multiple.
Qed.

Lemma ipoly_is_polynomial_remainder_witness :
  In 32 ipoly_bank_set_nums /\
  ipoly_hash_function 12345 5 32
  = Returned
      (gf2_rem (Z.to_nat (ipoly_high_bits_used 32))
         ((12345 mod 2 ^ ipoly_high_bits_used 32) * 32 + 5 mod 32)
         (ipoly_polynomial 32)).
Proof.
  assert (H32 : In 32 ipoly_bank_set_nums) by (simpl; tauto).
  split; [exact H32 |].
  exact (proj1 (ipoly_is_polynomial_remainder 32 12345 5 H32)).
Defined.

(** ** IPOLY: no conflict for strides that are powers of two *)

Lemma indices_below_NoDup (n : Z) : NoDup (indices_below n).
Proof.
  unfold indices_below. apply Injective_map_NoDup_in; [ | apply seq_NoDup ].
  intros x y _ _. apply Nat2Z.inj.
Qed.

Lemma indices_below_length (n : Z) :
  length (indices_below n) = Z.to_nat n.
Proof. unfold indices_below. now rewrite length_map, length_seq. Qed.

(** A one-to-one map of [[0, n)] into itself reaches every value. *)
Lemma one_to_one_is_onto (n : Z) (f : Z -> Z) :
  (forall i, 0 <= i < n -> 0 <= f i < n) ->
  (forall i j, 0 <= i < n -> 0 <= j < n -> f i = f j -> i = j) ->
  forall v, 0 <= v < n -> exists i, 0 <= i < n /\ f i = v.
Proof.
  intros Hrange Hinj v Hv.
  assert (Hincl : incl (indices_below n) (map f (indices_below n))).
  { apply NoDup_length_incl.
    - apply Injective_map_NoDup_in; [ | apply indices_below_NoDup ].
      intros x y Hx Hy. apply Hinj; now apply in_indices_below.
    - now rewrite length_map.
    - intros y Hy. apply in_map_iff in Hy. destruct Hy as (x & <- & Hx).
      apply in_indices_below, Hrange, in_indices_below, Hx. }
  assert (Hin : In v (map f (indices_below n)))
    by (apply Hincl, in_indices_below, Hv).
  apply in_map_iff in Hin. destruct Hin as (i & Hi & Hin).
  exists i. split; [now apply in_indices_below | exact Hi].
Qed.

(** No setting but 0 of [index_bits] consecutive address bits is hashed
    to 0, wherever the bits start at or below [ipoly_high_bits_used]. *)
Lemma ipoly_window_kernel (n s w : Z) :
  In n ipoly_bank_set_nums ->
  0 <= s <= ipoly_high_bits_used n ->
  0 <= w < n ->
  returned_value (ipoly_hash_of_address n (Z.shiftl w s)) = 0 ->
  w = 0.
Proof.
  intros Hn Hs Hw Hzero.
  assert (Hall :
            forallb
              (fun s =>
                 forallb
                   (fun w =>
                      (w =? 0)
                      || negb (returned_value
                                 (ipoly_hash_of_address n (Z.shiftl w s))
                               =? 0))
                   (indices_below n))
              (indices_below (ipoly_high_bits_used n + 1))
            = true)
    by (in_banks Hn; vm_compute; reflexivity).
  assert (Hs' : 0 <= s < ipoly_high_bits_used n + 1) by lia.
  apply (forallb_indices_below _ _ Hall) in Hs'.
  apply (forallb_indices_below _ _ Hs') in Hw.
  apply orb_true_iff in Hw. destruct Hw as [Hw | Hw].
  - now apply Z.eqb_eq in Hw.
  - apply negb_true_iff, Z.eqb_neq in Hw. contradiction.
Qed.

Lemma lxor_eq_0 (x y : Z) : Z.lxor x y = 0 -> x = y.
Proof.
  intros H. apply (lxor_cancel_r _ _ y).
  now rewrite H, Z.lxor_nilpotent.
Qed.

Lemma bijection_on_ext (n : Z) (f g : Z -> outcome Z) :
  (forall i, f i = g i) -> bijection_on n g -> bijection_on n f.
Proof.
  intros Hext (Hrange & Hinj & Honto). split; [ | split ].
  - intros i Hi. rewrite Hext. now apply Hrange.
  - intros i j Hi Hj. rewrite !Hext. now apply Hinj.
  - intros v Hv. destruct (Honto v Hv) as (i & Hi & Hiv).
    exists i. now rewrite Hext.
Qed.

(** An XOR-additive map into [[0, n)] that sends no setting but 0 of the
    bits from [s] on to 0 is a bijection from these settings. *)
Section window.

Variables (n s : Z) (L : Z -> Z).
Hypothesis lxor_below : forall i j,
    0 <= i < n -> 0 <= j < n -> 0 <= Z.lxor i j < n.
Hypothesis L_range : forall x, 0 <= L x < n.
Hypothesis L_lxor : forall x y, L (Z.lxor x y) = Z.lxor (L x) (L y).
Hypothesis L_kernel : forall w, 0 <= w < n -> L (Z.shiftl w s) = 0 -> w = 0.

Lemma window_one_to_one (address i j : Z) :
  0 <= i < n -> 0 <= j < n ->
  L (Z.lxor address (Z.shiftl i s)) = L (Z.lxor address (Z.shiftl j s)) ->
  i = j.
Proof.
  intros Hi Hj Heq. rewrite !L_lxor in Heq.
  rewrite !(Z.lxor_comm (L address)) in Heq.
  apply lxor_cancel_r in Heq.
  apply lxor_eq_0, L_kernel; [now apply lxor_below |].
  now rewrite Z.shiftl_lxor, L_lxor, Heq, Z.lxor_nilpotent.
Qed.

Lemma window_bijection (address : Z) :
  bijection_on n (fun w => Returned (L (Z.lxor address (Z.shiftl w s)))).
Proof.
  split; [ | split ].
  - intros i _. eexists. split; [reflexivity | apply L_range].
  - intros i j Hi Hj Heq. injection Heq as Heq.
    now apply (window_one_to_one address).
  - intros v Hv.
    destruct (one_to_one_is_onto n
                (fun w => L (Z.lxor address (Z.shiftl w s)))
                (fun i _ => L_range _) (window_one_to_one address) v Hv)
      as (i & Hi & Hiv).
    exists i. split; [exact Hi |]. now rewrite <- Hiv.
Qed.

End window.

(** X5. Addresses that differ only in [index_bits] consecutive bits, which
    a stride that is a power of two runs through, are hashed to distinct
    banks and reach every bank: for any address and any start [s] of the
    bits from 0 up to [ipoly_high_bits_used], the settings of these bits
    are in bijection with the banks. *)
Theorem ipoly_stride_conflict_free (n address s : Z) :
  In n ipoly_bank_set_nums ->
  0 <= s <= ipoly_high_bits_used n ->
  bijection_on n
    (fun w => ipoly_hash_of_address n (Z.lxor address (Z.shiftl w s))).
Proof.
  intros Hn Hs.
  apply bijection_on_ext
    with (g := fun w =>
                 Returned
                   (returned_value
                      (ipoly_hash_of_address n
                         (Z.lxor address (Z.shiftl w s))))).
  { intros w. now apply ipoly_of_address_value. }
  apply (window_bijection n s
           (fun x => returned_value (ipoly_hash_of_address n x))).
  - destruct (bank_is_pow2 n Hn) as (N & HN & Hpow). rewrite Hpow.
    intros i j Hi Hj. now apply lxor_below_pow2.
  - intros x. unfold ipoly_hash_of_address.
    destruct (ipoly_in_range n (Z.shiftr x (index_bits n))
                             (x mod 2 ^ index_bits n) Hn)
      as (v & Hv & Hbound).
    now rewrite Hv.
  - intros x y. now apply ipoly_of_address_lxor.
  - intros w Hw. now apply ipoly_window_kernel.
Qed.

Lemma ipoly_stride_conflict_free_witness :
  In 16 ipoly_bank_set_nums /\ 0 <= 7 <= ipoly_high_bits_used 16 /\
  bijection_on 16
    (fun w => ipoly_hash_of_address 16 (Z.lxor 74565 (Z.shiftl w 7))).
Proof.
  assert (H16 : In 16 ipoly_bank_set_nums) by (simpl; tauto).
  assert (H7 : 0 <= 7 <= ipoly_high_bits_used 16)
    by (change (ipoly_high_bits_used 16) with 13; lia).
  split; [exact H16 | split; [exact H7 |]].
  exact (ipoly_stride_conflict_free 16 74565 7 H16 H7).
Defined.

(** ** PAE: which indices collide, and which banks are reached *)

Lemma PAE_value (higher_bits index : Z) :
  PAE_hash_function higher_bits index 32
  = Returned (returned_value (PAE_hash_function higher_bits index 32)).
Proof.
  destruct (PAE_in_range higher_bits index) as (v & Hv & _).
  now rewrite Hv.
Qed.

Lemma PAE_value_lxor (a a' b b' : Z) :
  returned_value (PAE_hash_function (Z.lxor a a') (Z.lxor b b') 32)
  = Z.lxor (returned_value (PAE_hash_function a b 32))
           (returned_value (PAE_hash_function a' b' 32)).
Proof.
  destruct PAE_linear as [Hadd _].
  destruct (Hadd a a' b b') as (v & v' & Hv & Hv' & Hsum).
  cbv beta in Hv, Hv', Hsum. now rewrite Hv, Hv', Hsum.
Qed.

(** With higher bits 0, only the indices 0 and 17 are hashed to 0. *)
Lemma PAE_index_kernel (w : Z) :
  0 <= w < 32 ->
  returned_value (PAE_hash_function 0 w 32) = 0 ->
  w = 0 \/ w = 17.
Proof.
  intros Hw Hzero.
  assert (Hall :
            forallb
              (fun w =>
                 (w =? 0) || (w =? 17)
                 || negb (returned_value (PAE_hash_function 0 w 32) =? 0))
              (indices_below 32) = true)
    by (vm_compute; reflexivity).
  apply (forallb_indices_below _ _ Hall) in Hw.
  apply orb_true_iff in Hw. destruct Hw as [Hw | Hw].
  - apply orb_true_iff in Hw. destruct Hw as [Hw | Hw];
      apply Z.eqb_eq in Hw; tauto.
  - apply negb_true_iff, Z.eqb_neq in Hw. contradiction.
Qed.

(** X6. For any higher bits, two indices of [[0, 32)] have the same PAE
    hash exactly when they are equal or differ in bits 0 and 4 together:
    every hashed index is shared by exactly two indices. *)
Theorem PAE_collisions_exactly (higher_bits i j : Z) :
  0 <= i < 32 -> 0 <= j < 32 ->
  PAE_hash_function higher_bits i 32 = PAE_hash_function higher_bits j 32
  <-> i = j \/ i = Z.lxor j 17.
Proof.
  intros Hi Hj. split.
  - intros Heq.
    assert (Hw : 0 <= Z.lxor i j < 32).
    { change 32 with (2 ^ 5) in Hi, Hj |- *. apply lxor_below_pow2; lia. }
    assert (Hzero : returned_value (PAE_hash_function 0 (Z.lxor i j) 32) = 0).
    { pose proof (PAE_value_lxor higher_bits higher_bits i j) as Hsum.
      rewrite Z.lxor_nilpotent in Hsum.
      now rewrite Hsum, Heq, Z.lxor_nilpotent. }
    destruct (PAE_index_kernel _ Hw Hzero) as [H0 | H17].
    + left. now apply lxor_eq_0.
    + right. apply lxor_eq_0.
      now rewrite <- Z.lxor_assoc, H17, Z.lxor_nilpotent.
  - intros [-> | ->]; [reflexivity | apply PAE_flip_0_and_4].
Qed.

Lemma PAE_collisions_exactly_witness :
  0 <= 12 < 32 /\ 0 <= 29 < 32 /\
  (PAE_hash_function 4242 12 32 = PAE_hash_function 4242 29 32
   <-> 12 = 29 \/ 12 = Z.lxor 29 17).
Proof.
  assert (H12 : 0 <= 12 < 32) by lia.
  assert (H29 : 0 <= 29 < 32) by lia.
  split; [exact H12 | split; [exact H29 |]].
  exact (PAE_collisions_exactly 4242 12 29 H12 H29).
Defined.

(** X7. Bits 0, 1 and 3 of the PAE hash XOR to a value that the index
    does not enter: the XOR of bits 13, 12, 9, 8, 6, 5, 3, 1 and 0 of the
    higher bits.  For fixed higher bits the 16 values of [[0, 32)] of the
    other parity are never returned. *)
Theorem PAE_output_parity (higher_bits index : Z) :
  exists v,
    PAE_hash_function higher_bits index 32 = Returned v /\
    Z.testbit v 0 ^^ Z.testbit v 1 ^^ Z.testbit v 3
    = Z.testbit higher_bits 13 ^^ Z.testbit higher_bits 12
      ^^ Z.testbit higher_bits 9 ^^ Z.testbit higher_bits 8
      ^^ Z.testbit higher_bits 6 ^^ Z.testbit higher_bits 5
      ^^ Z.testbit higher_bits 3 ^^ Z.testbit higher_bits 1
      ^^ Z.testbit higher_bits 0.
Proof.
  enter_branch. eexists. split; [reflexivity |].
  drop_to_unsigned. read_bits. btauto.
Qed.

(** ** PAE: which bits of the arguments are read *)

Lemma PAE_reads_low_bits (higher_bits index : Z) :
  PAE_hash_function (higher_bits mod 2 ^ PAE_high_bits_used)
                    (index mod 32) 32
  = PAE_hash_function higher_bits index 32.
Proof.
  change (index mod 32) with (index mod 2 ^ 5).
  change PAE_high_bits_used with 15.
  enter_branch. apply f_equal. same_chain 5.
Qed.

Lemma PAE_used_bits_matter (j : Z) :
  0 <= j < PAE_high_bits_used ->
  returned_value (PAE_hash_function (2 ^ j) 0 32) <> 0.
Proof.
  intros Hj.
  assert (Hall :
            forallb
              (fun j =>
                 negb (returned_value (PAE_hash_function (2 ^ j) 0 32) =? 0))
              (indices_below PAE_high_bits_used) = true)
    by (vm_compute; reflexivity).
  apply (forallb_indices_below _ _ Hall) in Hj.
  apply negb_true_iff, Z.eqb_neq in Hj. exact Hj.
Qed.

(** X8. The PAE hash reads the five low bits of the index and the fifteen
    low bits of the higher bits: reducing both changes nothing, and
    flipping bit [j] of the higher bits changes the hash exactly when
    [j < 15]. *)
Theorem PAE_bits_read (higher_bits index j : Z) :
  0 <= j ->
  PAE_hash_function (higher_bits mod 2 ^ PAE_high_bits_used)
                    (index mod 32) 32
  = PAE_hash_function higher_bits index 32
  /\
  (PAE_hash_function (Z.lxor higher_bits (2 ^ j)) index 32
   = PAE_hash_function higher_bits index 32
   <-> PAE_high_bits_used <= j).
Proof.
  intros Hj. split; [apply PAE_reads_low_bits |].
  assert (Hflip :
            returned_value
              (PAE_hash_function (Z.lxor higher_bits (2 ^ j)) index 32)
            = Z.lxor (returned_value (PAE_hash_function higher_bits index 32))
                     (returned_value (PAE_hash_function (2 ^ j) 0 32))).
  { rewrite <- (Z.lxor_0_r index) at 1. apply PAE_value_lxor. }
  split.
  - intros Heq.
    destruct (Z.le_gt_cases PAE_high_bits_used j) as [Hle | Hlt];
      [exact Hle |].
    exfalso. apply (PAE_used_bits_matter j); [lia |].
    rewrite Heq in Hflip.
    apply (lxor_cancel_r _ _
             (returned_value (PAE_hash_function higher_bits index 32))).
    now rewrite Z.lxor_0_l, Z.lxor_comm.
  - intros Hle.
    rewrite <- (PAE_reads_low_bits (Z.lxor higher_bits (2 ^ j))).
    rewrite <- (PAE_reads_low_bits higher_bits index).
    rewrite mod_pow2_lxor by (unfold PAE_high_bits_used; lia).
    rewrite (pow2_mod_pow2 j) by (unfold PAE_high_bits_used in *; lia).
    now rewrite Z.lxor_0_r.
Qed.

Lemma PAE_bits_read_witness :
  0 <= 14 /\
  PAE_hash_function (123456 mod 2 ^ PAE_high_bits_used) (40 mod 32) 32
  = PAE_hash_function 123456 40 32
  /\
  (PAE_hash_function (Z.lxor 123456 (2 ^ 14)) 40 32
   = PAE_hash_function 123456 40 32
   <-> PAE_high_bits_used <= 14).
Proof.
  assert (H14 : 0 <= 14) by lia.
  split; [exact H14 | exact (PAE_bits_read 123456 40 14 H14)].
Defined.

(** ** PAE: the strides with and without conflicts *)

Lemma PAE_of_address_value (address : Z) :
  PAE_hash_of_address address
  = Returned (returned_value (PAE_hash_of_address address)).
Proof. apply PAE_value. Qed.

Lemma PAE_of_address_lxor (x y : Z) :
  returned_value (PAE_hash_of_address (Z.lxor x y))
  = Z.lxor (returned_value (PAE_hash_of_address x))
           (returned_value (PAE_hash_of_address y)).
Proof.
  unfold PAE_hash_of_address.
  rewrite Z.shiftr_lxor, mod_pow2_lxor by lia.
  apply PAE_value_lxor.
Qed.

Lemma PAE_of_address_range (address : Z) :
  0 <= returned_value (PAE_hash_of_address address) < 32.
Proof.
  unfold PAE_hash_of_address.
  destruct (PAE_in_range (Z.shiftr address 5) (address mod 2 ^ 5))
    as (v & Hv & Hbound).
  now rewrite Hv.
Qed.

Lemma PAE_window_table (s : Z) :
  0 <= s <= 15 ->
  PAE_window_collides s = negb (existsb (Z.eqb s) PAE_good_strides).
Proof.
  intros Hs.
  assert (Hall :
            forallb
              (fun s =>
                 Bool.eqb (PAE_window_collides s)
                          (negb (existsb (Z.eqb s) PAE_good_strides)))
              (indices_below 16) = true)
    by (vm_compute; reflexivity).
  assert (Hs' : 0 <= s < 16) by lia.
  apply (forallb_indices_below _ _ Hall) in Hs'.
  now apply eqb_prop in Hs'.
Qed.

Lemma in_good_strides (s : Z) :
  existsb (Z.eqb s) PAE_good_strides = true <-> In s PAE_good_strides.
Proof.
  rewrite existsb_exists. split.
  - intros (x & Hx & Heq). apply Z.eqb_eq in Heq. now subst.
  - intros Hs. exists s. split; [exact Hs | apply Z.eqb_refl].
Qed.

(** X9. Five consecutive address bits starting at bit [s], which a stride
    of [2^s] runs through, are in bijection with the 32 banks exactly for
    [s] among 1, 4, 5, 6, 7, 8, 9, 14 and 15; for the other starts up to 15
    (0, 2, 3, 10, 11, 12 and 13) two settings share a bank, whatever the
    other bits of the address. *)
Theorem PAE_stride_conflicts (address s : Z) :
  0 <= s <= 15 ->
  bijection_on 32
    (fun w => PAE_hash_of_address (Z.lxor address (Z.shiftl w s)))
  <-> In s PAE_good_strides.
Proof.
  intros Hs. pose proof (PAE_window_table s Hs) as Htable.
  rewrite <- in_good_strides. split.
  - intros (_ & Hinj & _).
    destruct (existsb (Z.eqb s) PAE_good_strides); [reflexivity |].
    exfalso. cbn [negb] in Htable.
    apply existsb_exists in Htable. destruct Htable as (w & Hw & Hcoll).
    apply in_indices_below in Hw.
    apply andb_true_iff in Hcoll. destruct Hcoll as [Hw0 Hzero].
    apply negb_true_iff, Z.eqb_neq in Hw0. apply Z.eqb_eq in Hzero.
    apply Hw0. symmetry. apply Hinj; [lia | exact Hw |].
    cbv beta.
    rewrite (PAE_of_address_value (Z.lxor address (Z.shiftl 0 s))).
    rewrite (PAE_of_address_value (Z.lxor address (Z.shiftl w s))).
    apply f_equal.
    rewrite !PAE_of_address_lxor, Hzero.
    now rewrite Z.shiftl_0_l.
  - intros Hgood. rewrite Hgood in Htable. cbn [negb] in Htable.
    apply bijection_on_ext
      with (g := fun w =>
                   Returned
                     (returned_value
                        (PAE_hash_of_address
                           (Z.lxor address (Z.shiftl w s))))).
    { intros w. apply PAE_of_address_value. }
    apply (window_bijection 32 s
             (fun x => returned_value (PAE_hash_of_address x))).
    + intros i j Hi Hj. change 32 with (2 ^ 5) in Hi, Hj |- *.
      apply lxor_below_pow2; lia.
    + apply PAE_of_address_range.
    + apply PAE_of_address_lxor.
    + intros w Hw Hzero.
      destruct (Z.eq_dec w 0) as [Hw0 | Hw0]; [exact Hw0 |].
      exfalso.
      assert (Hcoll : PAE_window_collides s = true).
      { apply existsb_exists. exists w.
        split; [now apply in_indices_below |].
        apply andb_true_iff. split.
        - now apply negb_true_iff, Z.eqb_neq.
        - now apply Z.eqb_eq. }
      congruence.
Qed.

Lemma PAE_stride_conflicts_witness :
  0 <= 5 <= 15 /\
  (bijection_on 32
     (fun w => PAE_hash_of_address (Z.lxor 99 (Z.shiftl w 5)))
   <-> In 5 PAE_good_strides).
Proof.
  assert (H5 : 0 <= 5 <= 15) by lia.
  split; [exact H5 | exact (PAE_stride_conflicts 99 5 H5)].
Defined.

(** ** The bitwise hash: round trip, range and edge bank counts *)

Lemma bitwise_hash_is_unsigned (higher_bits index bank_set_num : Z) :
  is_unsigned (bitwise_hash_function higher_bits index bank_set_num).
Proof. unfold bitwise_hash_function. apply to_unsigned_range. Qed.

(** X10. Hashing twice with the same higher bits and bank count gives
    the index back, for every bank count, a power of two or not. *)
Theorem bitwise_hash_involution (higher_bits index bank_set_num : Z) :
  is_unsigned index ->
  bitwise_hash_function higher_bits
    (bitwise_hash_function higher_bits index bank_set_num) bank_set_num
  = index.
Proof.
  intros Hi.
  rewrite (bitwise_hash_unfold _ (bitwise_hash_function _ _ _))
    by apply bitwise_hash_is_unsigned.
  rewrite bitwise_hash_unfold by exact Hi.
  now rewrite Z.lxor_assoc, Z.lxor_nilpotent, Z.lxor_0_r.
Qed.

Lemma bitwise_hash_involution_witness :
  is_unsigned 1234 /\
  bitwise_hash_function 987654321 (bitwise_hash_function 987654321 1234 24) 24
  = 1234.
Proof.
  assert (Hi : is_unsigned 1234) by (unfold is_unsigned, unsigned_bits; lia).
  split; [exact Hi | exact (bitwise_hash_involution 987654321 1234 24 Hi)].
Defined.

Lemma top_bit_set (k z : Z) :
  0 <= k -> 2 ^ k <= z < 2 ^ (k + 1) -> Z.testbit z k = true.
Proof.
  intros Hk Hz.
  assert (Hpos : 0 < z) by (pose proof (pow2_pos k Hk); lia).
  assert (Hlog : Z.log2 z = k)
    by (apply Z.log2_unique; [exact Hk | rewrite <- Z.add_1_r; exact Hz]).
  rewrite <- Hlog. now apply Z.bit_log2.
Qed.

(** For a bank count strictly between two powers of two, some index below
    the bank count is hashed at or above it. *)
Lemma bitwise_hash_leaves_range (n k : Z) :
  0 <= k -> 2 ^ k < n < 2 ^ (k + 1) -> is_unsigned n ->
  exists higher_bits index,
    0 <= index < n /\ n <= bitwise_hash_function higher_bits index n.
Proof.
  intros Hk Hn Hun.
  set (full := Z.ones (k + 1)).
  assert (Hfull : full = 2 ^ (k + 1) - 1)
    by (unfold full; rewrite Z.ones_equiv; lia).
  assert (Hn1 : 0 <= n - 1 < 2 ^ (k + 1)) by lia.
  assert (Htop : Z.testbit (n - 1) k = true)
    by (apply top_bit_set; [exact Hk | lia]).
  assert (Hindex : 0 <= Z.lxor (n - 1) full < 2 ^ k).
  { apply (below_pow2_bits k _ Hk). intros j Hj.
    rewrite Z.lxor_spec. unfold full.
    rewrite Z.testbit_ones_nonneg by lia.
    destruct (Z.eq_dec j k) as [-> | Hne].
    - rewrite Htop. now rewrite (proj2 (Z.ltb_lt k (k + 1))) by lia.
    - rewrite (proj1 (below_pow2_bits (k + 1) (n - 1) ltac:(lia)) Hn1)
        by lia.
      now rewrite (proj2 (Z.ltb_ge j (k + 1))) by lia. }
  exists (n - 1), (Z.lxor (n - 1) full). split; [lia |].
  rewrite bitwise_hash_unfold by (unfold is_unsigned in *; lia).
  rewrite to_unsigned_small by (unfold is_unsigned in *; lia).
  rewrite Z.land_diag.
  rewrite (Z.lxor_comm (n - 1)), Z.lxor_assoc, Z.lxor_nilpotent, Z.lxor_0_r.
  lia.
Qed.

(** X11. For a bank count of [[1, 2^32)], the bitwise hash keeps every
    index below the bank count below it, whatever the higher bits, exactly
    when the bank count is a power of two. *)
Theorem bitwise_hash_range_iff_pow2 (n : Z) :
  1 <= n < 2 ^ 32 ->
  (forall higher_bits index,
      0 <= index < n ->
      0 <= bitwise_hash_function higher_bits index n < n)
  <-> exists k, 0 <= k /\ n = 2 ^ k.
Proof.
  intros Hn.
  assert (Hun : is_unsigned n) by (unfold is_unsigned, unsigned_bits; lia).
  split.
  - intros Hkeeps.
    pose proof (Z.log2_nonneg n) as Hk.
    destruct (Z.log2_spec n ltac:(lia)) as [Hlow Hhigh].
    rewrite <- Z.add_1_r in Hhigh.
    exists (Z.log2 n). split; [exact Hk |].
    destruct (Z.eq_dec n (2 ^ Z.log2 n)) as [Heq | Hne]; [exact Heq |].
    exfalso.
    destruct (bitwise_hash_leaves_range n (Z.log2 n) Hk ltac:(lia) Hun)
      as (higher_bits & index & Hi & Hout).
    specialize (Hkeeps higher_bits index Hi). lia.
  - intros (k & Hk & ->) higher_bits index Hi.
    assert (Hk32 : 0 <= k < 32).
    { split; [exact Hk |]. apply (Z.pow_lt_mono_r_iff 2); lia. }
    rewrite bitwise_hash_pow2;
      [ | exact Hk32 | unfold is_unsigned, unsigned_bits in *; lia ].
    apply lxor_below_pow2; [exact Hk | exact Hi |].
    apply Z.mod_pos_bound, pow2_pos, Hk.
Qed.

Lemma bitwise_hash_range_iff_pow2_witness :
  1 <= 24 < 2 ^ 32 /\
  ((forall higher_bits index,
       0 <= index < 24 ->
       0 <= bitwise_hash_function higher_bits index 24 < 24)
   <-> exists k, 0 <= k /\ 24 = 2 ^ k).
Proof.
  assert (H24 : 1 <= 24 < 2 ^ 32) by lia.
  split; [exact H24 | exact (bitwise_hash_range_iff_pow2 24 H24)].
Defined.

(** X12. The two smallest bank counts.  With one bank the mask is 0 and
    the index is returned unchanged; with bank count 0 the subtraction
    wraps, the mask is all 32 bits, and the index is XORed with the 32 low
    bits of the higher bits. *)
Theorem bitwise_hash_one_and_zero_banks (higher_bits index : Z) :
  is_unsigned index ->
  bitwise_hash_function higher_bits index 1 = index /\
  bitwise_hash_function higher_bits index 0
  = Z.lxor index (higher_bits mod 2 ^ 32).
Proof.
  intros Hi. split.
  - rewrite bitwise_hash_unfold by exact Hi.
    change (to_unsigned (1 - 1)) with 0.
    now rewrite Z.land_0_r, Z.lxor_0_r.
  - rewrite bitwise_hash_unfold by exact Hi.
    change (to_unsigned (0 - 1)) with (Z.ones 32).
    now rewrite Z.land_ones by lia.
Qed.

Lemma bitwise_hash_one_and_zero_banks_witness :
  is_unsigned 5 /\
  bitwise_hash_function (2 ^ 40 + 3) 5 1 = 5 /\
  bitwise_hash_function (2 ^ 40 + 3) 5 0 = Z.lxor 5 ((2 ^ 40 + 3) mod 2 ^ 32).
Proof.
  assert (Hi : is_unsigned 5) by (unfold is_unsigned, unsigned_bits; lia).
  split; [exact Hi | exact (bitwise_hash_one_and_zero_banks (2 ^ 40 + 3) 5 Hi)].
Defined.
